(** * GetGoogleReviewLinkHelper: the Places handler

    A shallow embedding of [src/JS/PlacesHandler.js] (the single-flight
    loader of the Google Maps script and the place resolution logic) and of
    the part of [src/JS/main.js] that consumes its results, together with
    the properties of the specification that concern them. *)

From Stdlib Require Import ZArith String Ascii Lia.
From stdpp Require Import base option list gmap.

(** ** JavaScript strings and values *)

Module JS.

Local Open Scope Z_scope.

(** A JavaScript string is a sequence of UTF-16 code units. *)
Abbreviation jsstring := (list Z).

(** ASCII literals of the source, as code units. *)
Definition js (s : string) : jsstring :=
  map (fun a => Z.of_N (N_of_ascii a)) (list_ascii_of_string s).

(** The values a field of a provider record holds: a string, or one of the
    two absent values. *)
Inductive JsValue :=
| JsUndefined
| JsNull
| JsString (s : jsstring).

#[global] Instance JsValue_eq_dec : EqDecision JsValue.
Proof. solve_decision. Defined.

(** [a === b] on these values. *)
Definition strict_eq (a b : JsValue) : bool := bool_decide (a = b).

(** ToBoolean: a string is truthy when it is not empty. *)
Definition truthy (v : JsValue) : bool :=
  match v with
  | JsUndefined | JsNull => false
  | JsString [] => false
  | JsString (_ :: _) => true
  end.

(** [a || b] *)
Definition or_else (a b : JsValue) : JsValue := if truthy a then a else b.

(** ToString, as a template literal applies it. *)
Definition ToString (v : JsValue) : jsstring :=
  match v with
  | JsUndefined => js "undefined"
  | JsNull => js "null"
  | JsString s => s
  end.

(** *** Regular expressions of the source

    [search m s] is [s.match(re)] for a regular expression without flags:
    the match at the leftmost position where the expression, anchored
    there by [m], matches. *)
Fixpoint search {A} (m : jsstring -> option A) (s : jsstring) : option A :=
  match m s with
  | Some v => Some v
  | None => match s with
            | [] => None
            | _ :: t => search m t
            end
  end.

(** [strip_prefix p s]: the rest of [s] after the literal [p]. *)
Fixpoint strip_prefix (p s : jsstring) : option jsstring :=
  match p, s with
  | [], _ => Some s
  | a :: p', b :: s' => if a =? b then strip_prefix p' s' else None
  | _ :: _, [] => None
  end.

(** The greedy class repetition [[^c]*]: the longest run without [c]. *)
Fixpoint run_without (c : Z) (s : jsstring) : jsstring :=
  match s with
  | [] => []
  | a :: t => if a =? c then [] else a :: run_without c t
  end.

(** The group [([^c]+)]: at least one code unit. *)
Definition group_without (c : Z) (s : jsstring) : option jsstring :=
  match run_without c s with
  | [] => None
  | v => Some v
  end.

(** [s.replace(/\+/g, ' ')] *)
Definition replace_plus (s : jsstring) : jsstring :=
  map (fun c => if c =? 43 then 32 else c) s.

(** *** decodeURIComponent (ECMA-262, Decode with an empty preserve set)

    [None] is the URIError exception. The escapes are read first, then the
    octets are grouped into UTF-8 sequences; any failure is the same
    exception. *)
Definition hex_digit (c : Z) : option Z :=
  if (48 <=? c) && (c <=? 57) then Some (c - 48)
  else if (65 <=? c) && (c <=? 70) then Some (c - 55)
  else if (97 <=? c) && (c <=? 102) then Some (c - 87)
  else None.

Definition ParseHexOctet (h1 h2 : Z) : option Z :=
  match hex_digit h1, hex_digit h2 with
  | Some a, Some b => Some (16 * a + b)
  | _, _ => None
  end.

Inductive token :=
| Lit (c : Z)
| Octet (B : Z).

Fixpoint unescape (s : jsstring) : option (list token) :=
  match s with
  | [] => Some []
  | c :: rest =>
      if c =? 37 then
        match rest with
        | h1 :: h2 :: rest' =>
            match ParseHexOctet h1 h2 with
            | Some B => cons (Octet B) <$> unescape rest'
            | None => None
            end
        | _ => None
        end
      else cons (Lit c) <$> unescape rest
  end.

(** The payload of a continuation octet [10xxxxxx]. *)
Definition continuation (t : token) : option Z :=
  match t with
  | Octet B => if (128 <=? B) && (B <=? 191) then Some (B - 128) else None
  | Lit _ => None
  end.

(** A code point of a sequence whose shortest form starts at [lo]: not
    overlong, not a surrogate, at most U+10FFFF. *)
Definition valid_code_point (lo V : Z) : bool :=
  (lo <=? V) && (V <=? 1114111) && negb ((55296 <=? V) && (V <=? 57343)).

Definition UTF16EncodeCodePoint (V : Z) : jsstring :=
  if V <? 65536 then [V]
  else [55296 + (V - 65536) / 1024; 56320 + (V - 65536) mod 1024].

Definition emit (lo V : Z) (r : option jsstring) : option jsstring :=
  if valid_code_point lo V then app (UTF16EncodeCodePoint V) <$> r else None.

Fixpoint utf8 (ts : list token) : option jsstring :=
  match ts with
  | [] => Some []
  | Lit c :: r => cons c <$> utf8 r
  | Octet B :: r =>
      if B <? 128 then cons B <$> utf8 r
      else if B <? 192 then None
      else if B <? 224 then
        match r with
        | t1 :: r' =>
            match continuation t1 with
            | Some c1 => emit 128 ((B - 192) * 64 + c1) (utf8 r')
            | None => None
            end
        | _ => None
        end
      else if B <? 240 then
        match r with
        | t1 :: t2 :: r' =>
            match continuation t1, continuation t2 with
            | Some c1, Some c2 =>
                emit 2048 (((B - 224) * 64 + c1) * 64 + c2) (utf8 r')
            | _, _ => None
            end
        | _ => None
        end
      else if B <? 248 then
        match r with
        | t1 :: t2 :: t3 :: r' =>
            match continuation t1, continuation t2, continuation t3 with
            | Some c1, Some c2, Some c3 =>
                emit 65536 ((((B - 240) * 64 + c1) * 64 + c2) * 64 + c3)
                     (utf8 r')
            | _, _, _ => None
            end
        | _ => None
        end
      else None
  end.

Definition decodeURIComponent (s : jsstring) : option jsstring :=
  unescape s ≫= utf8.

(** *** String.prototype.trim *)
Definition is_white_space (c : Z) : bool :=
  ((9 <=? c) && (c <=? 13)) || (c =? 32) || (c =? 160) || (c =? 5760)
  || ((8192 <=? c) && (c <=? 8202)) || (c =? 8232) || (c =? 8233)
  || (c =? 8239) || (c =? 8287) || (c =? 12288) || (c =? 65279).

Fixpoint trim_start (s : jsstring) : jsstring :=
  match s with
  | [] => []
  | c :: t => if is_white_space c then trim_start t else s
  end.

Definition trim (s : jsstring) : jsstring :=
  rev (trim_start (rev (trim_start s))).

(** *** The other string methods the page uses *)

(** [s.includes(c)] for a needle [c] of one code unit. *)
Definition includes (c : Z) (s : jsstring) : bool := existsb (Z.eqb c) s.

(** [s.slice(-n)]: the last [n] code units, or all of [s]. *)
Definition slice_last (n : nat) (s : jsstring) : jsstring :=
  drop (length s - n)%nat s.

(** *** encodeURIComponent (ECMA-262, Encode)

    [None] is the URIError exception, thrown for a surrogate that is not
    part of a pair. *)
Definition unescaped (c : Z) : bool :=
  ((65 <=? c) && (c <=? 90)) || ((97 <=? c) && (c <=? 122))
  || ((48 <=? c) && (c <=? 57))
  || (c =? 95) || (c =? 45) || (c =? 46) || (c =? 33) || (c =? 126)
  || (c =? 42) || (c =? 39) || (c =? 40) || (c =? 41).

Definition hex_char (d : Z) : Z := if d <? 10 then 48 + d else 55 + d.

Definition percent (B : Z) : jsstring :=
  [37; hex_char (B / 16); hex_char (B mod 16)].

Definition utf8_octets (V : Z) : list Z :=
  if V <? 128 then [V]
  else if V <? 2048 then [192 + V / 64; 128 + V mod 64]
  else if V <? 65536 then
    [224 + V / 4096; 128 + (V / 64) mod 64; 128 + V mod 64]
  else [240 + V / 262144; 128 + (V / 4096) mod 64;
        128 + (V / 64) mod 64; 128 + V mod 64].

Definition escape (V : Z) : jsstring := concat (map percent (utf8_octets V)).

Definition leading_surrogate (c : Z) : bool := (55296 <=? c) && (c <=? 56319).

Definition trailing_surrogate (c : Z) : bool := (56320 <=? c) && (c <=? 57343).

Definition UTF16SurrogatePairToCodePoint (lead trail : Z) : Z :=
  (lead - 55296) * 1024 + (trail - 56320) + 65536.

(** The code units of a string are 16-bit. *)
Definition code_unit (c : Z) : Prop := 0 <= c < 65536.

(** What [encodeURIComponent] writes: an unescaped character, or [%]. *)
Definition url_safe (c : Z) : Prop := unescaped c = true \/ c = 37.

Fixpoint encodeURIComponent (s : jsstring) : option jsstring :=
  match s with
  | [] => Some []
  | c :: rest =>
      if unescaped c then cons c <$> encodeURIComponent rest
      else if leading_surrogate c then
        match rest with
        | d :: rest' =>
            if trailing_surrogate d then
              app (escape (UTF16SurrogatePairToCodePoint c d))
                <$> encodeURIComponent rest'
            else None
        | [] => None
        end
      else if trailing_surrogate c then None
      else app (escape c) <$> encodeURIComponent rest
  end.

End JS.

Import JS.


(** ** The Places handler ([src/JS/PlacesHandler.js]) *)

Module PlacesHandler.

(** The errors that reject a promise of the handler, named as the
    specification names them; [message] is the text the source gives to
    [new Error]. [URIError] is the exception of [decodeURIComponent], and
    [ProviderError] stands for anything the mapping library rejects with. *)
Inductive Error :=
| Timeout
| LoadFailure
| IncompleteLoad
| NoResults
| AmbiguousDifferentNames
| AmbiguousSameNameMultipleLocations (firstPlaceName : JsValue)
| URIError
| ProviderError (msg : jsstring).

#[global] Instance Error_eq_dec : EqDecision Error.
Proof. solve_decision. Defined.

Definition message (e : Error) : jsstring :=
  match e with
  | Timeout =>
      js "Timeout loading Google Maps. Please check your API key and try again."
  | LoadFailure =>
      js "Failed to load Google Maps script. Check your API key, internet connection, and browser console for details."
  | IncompleteLoad => js "Google Maps API did not load properly"
  | NoResults => js "No results found for the search query"
  | AmbiguousDifferentNames =>
      js "Multiple different businesses found. Please be more specific with your search terms."
  | AmbiguousSameNameMultipleLocations firstPlaceName =>
      js "Multiple locations for " ++ [34%Z] ++ ToString firstPlaceName
        ++ [34%Z] ++ js " found. Please include city or address in your search."
  | URIError => js "URI malformed"
  | ProviderError msg => msg
  end.

(** The six kinds the specification enumerates. *)
Definition typed_kind (e : Error) : bool :=
  match e with
  | Timeout | LoadFailure | IncompleteLoad | NoResults
  | AmbiguousDifferentNames | AmbiguousSameNameMultipleLocations _ => true
  | URIError | ProviderError _ => false
  end.

(** *** The script loader

    The state [loadGoogleMaps] and its callbacks read and write: the two
    fields of the handler, the two globals on [window], the promises and
    timers created so far, and the script elements appended to the
    document head. A promise, a timer and a script element are named by
    their index of creation. *)

Inductive PromiseState :=
| Pending
| Fulfilled
| Rejected (e : Error).

#[global] Instance PromiseState_eq_dec : EqDecision PromiseState.
Proof. solve_decision. Defined.

(** A timer set by [setTimeout]: its delay in milliseconds, the promise its
    callback rejects, and whether it can still fire. *)
Record Timer := {
  delay : Z;
  timer_rejects : nat;
  active : bool;
}.

(** A script element: its [src], and the promise its [onerror] handler
    rejects. *)
Record Script := {
  src : jsstring;
  onerror_rejects : nat;
}.

Record World := {
  (** [window.google && window.google.maps && window.google.maps.places] *)
  places_available : bool;
  (** [window.initMap]: the callback of the attempt whose promise it
      settles, or undefined *)
  initMap : option nat;
  mapsLoadingPromise : option nat;
  scriptLoadTimeout : option nat;
  promises : list PromiseState;
  timers : list Timer;
  head : list Script;
}.

(** The page as it is loaded: the constructor has run, nothing else. *)
Definition constructed : World := {|
  places_available := false;
  initMap := None;
  mapsLoadingPromise := None;
  scriptLoadTimeout := None;
  promises := [];
  timers := [];
  head := [];
|}.

(** [resolve()] and [reject(e)] of a promise: only a pending promise
    changes. *)
Definition settle (p : nat) (st : PromiseState) (ps : list PromiseState)
  : list PromiseState :=
  match ps !! p with
  | Some Pending => <[p := st]> ps
  | _ => ps
  end.

(** Timer [t] can no longer fire: it has fired, or it was cleared. *)
Definition deactivate (t : nat) (ts : list Timer) : list Timer :=
  alter (fun tm => {| delay := delay tm;
                      timer_rejects := timer_rejects tm;
                      active := false |}) t ts.

(** [clearTimeout(id)]; clearing [null] does nothing. *)
Definition clearTimeout (id : option nat) (ts : list Timer) : list Timer :=
  match id with
  | Some t => deactivate t ts
  | None => ts
  end.

Definition script_url (apiKey : jsstring) : jsstring :=
  js "https://maps.googleapis.com/maps/api/js?key=" ++ apiKey
    ++ js "&libraries=places&callback=initMap".

(** [loadGoogleMaps(apiKey)]: the promise returned and the state left. *)
Definition loadGoogleMaps (apiKey : jsstring) (w : World) : nat * World :=
  if places_available w then
    (* Promise.resolve() *)
    (length (promises w),
     {| places_available := places_available w;
        initMap := initMap w;
        mapsLoadingPromise := mapsLoadingPromise w;
        scriptLoadTimeout := scriptLoadTimeout w;
        promises := promises w ++ [Fulfilled];
        timers := timers w;
        head := head w |})
  else
    match mapsLoadingPromise w with
    | Some p => (p, w)
    | None =>
        let p := length (promises w) in
        let t := length (timers w) in
        (p,
         {| places_available := places_available w;
            initMap := Some p;
            mapsLoadingPromise := Some p;
            scriptLoadTimeout := Some t;
            promises := promises w ++ [Pending];
            timers := timers w ++ [{| delay := 10000;
                                      timer_rejects := p;
                                      active := true |}];
            head := head w ++ [{| src := script_url apiKey;
                                  onerror_rejects := p |}] |})
    end.

(** The callback given to [setTimeout], run when timer [t] fires; a timer
    fires once, and not after it was cleared. *)
Definition timer_fires (t : nat) (w : World) : World :=
  match timers w !! t with
  | Some tm =>
      if active tm then
        {| places_available := places_available w;
           initMap := initMap w;
           mapsLoadingPromise := None;
           scriptLoadTimeout := scriptLoadTimeout w;
           promises := settle (timer_rejects tm) (Rejected Timeout) (promises w);
           timers := deactivate t (timers w);
           head := head w |}
      else w
  | None => w
  end.

(** The loaded script calls the global [initMap]. *)
Definition initMap_called (w : World) : World :=
  match initMap w with
  | Some p =>
      {| places_available := places_available w;
         initMap := None;
         mapsLoadingPromise := mapsLoadingPromise w;
         scriptLoadTimeout := scriptLoadTimeout w;
         promises :=
           settle p (if places_available w then Fulfilled
                     else Rejected IncompleteLoad) (promises w);
         timers := clearTimeout (scriptLoadTimeout w) (timers w);
         head := head w |}
  | None => w
  end.

(** The [onerror] handler of the [i]-th script element. *)
Definition script_error (i : nat) (w : World) : World :=
  match head w !! i with
  | Some sc =>
      {| places_available := places_available w;
         initMap := initMap w;
         mapsLoadingPromise := None;
         scriptLoadTimeout := scriptLoadTimeout w;
         promises := settle (onerror_rejects sc) (Rejected LoadFailure) (promises w);
         timers := clearTimeout (scriptLoadTimeout w) (timers w);
         head := head w |}
  | None => w
  end.

(** The library appears on (or is absent from) [window]. *)
Definition set_places (b : bool) (w : World) : World :=
  {| places_available := b;
     initMap := initMap w;
     mapsLoadingPromise := mapsLoadingPromise w;
     scriptLoadTimeout := scriptLoadTimeout w;
     promises := promises w;
     timers := timers w;
     head := head w |}.

(** What happens on the page, one task of the event loop at a time. *)
Inductive Event :=
| Call (apiKey : jsstring)
| TimerFires (t : nat)
| ScriptCallback
| ScriptError (i : nat)
| PlacesAvailable (b : bool).

(** [run evs w]: the promises handed to the callers, in order, and the final
    state. *)
Fixpoint run (evs : list Event) (w : World) : list nat * World :=
  match evs with
  | [] => ([], w)
  | Call apiKey :: evs' =>
      let (p, w') := loadGoogleMaps apiKey w in
      let (ps, w'') := run evs' w' in (p :: ps, w'')
  | TimerFires t :: evs' => run evs' (timer_fires t w)
  | ScriptCallback :: evs' => run evs' (initMap_called w)
  | ScriptError i :: evs' => run evs' (script_error i w)
  | PlacesAvailable b :: evs' => run evs' (set_places b w)
  end.

(** The attempts in flight: the promises still pending. *)
Definition in_flight (w : World) : list nat :=
  filter (fun p => promises w !! p = Some Pending) (seq 0 (length (promises w))).

(** The invariant of the timers: every timer was set for 10 seconds, and a
    timer that can still fire is the one in [scriptLoadTimeout], set by the
    attempt whose promise is stored and still pending. *)
Definition timers_inv (w : World) : Prop :=
  ∀ t tm, timers w !! t = Some tm →
    delay tm = 10000%Z
    ∧ (active tm = true →
       scriptLoadTimeout w = Some t
       ∧ mapsLoadingPromise w = Some (timer_rejects tm)
       ∧ promises w !! timer_rejects tm = Some Pending).

(** No timer of [ts] can fire any more. *)
Definition no_active (ts : list Timer) : Prop :=
  ∀ t tm, ts !! t = Some tm → delay tm = 10000%Z ∧ active tm = false.

(** The bookkeeping of the attempts: the i-th script element and the i-th
    timer were created together and reject the same promise, which exists;
    later attempts have later promises; every script was requested from
    the URL built by [script_url]. *)
Definition scripts_inv (w : World) : Prop :=
  length (head w) = length (timers w)
  ∧ (∀ i sc, head w !! i = Some sc →
       onerror_rejects sc < length (promises w)
       ∧ (∃ tm, timers w !! i = Some tm
                ∧ timer_rejects tm = onerror_rejects sc)
       ∧ (∃ apiKey, src sc = script_url apiKey))
  ∧ (∀ i j sci scj, i < j → head w !! i = Some sci → head w !! j = Some scj →
       onerror_rejects sci < onerror_rejects scj).

(** While a timer can fire, the global [initMap] is the callback of its
    attempt. *)
Definition hook_inv (w : World) : Prop :=
  ∀ t tm, timers w !! t = Some tm → active tm = true →
    initMap w = Some (timer_rejects tm).

(** Promise [p] has lost its timer: it exists, and no timer that can still
    fire was set by its attempt. *)
Definition disarmed (p : nat) (w : World) : Prop :=
  p < length (promises w)
  ∧ ∀ t tm, timers w !! t = Some tm → active tm = true → timer_rejects tm ≠ p.

(** Promise [p] is left to itself: still pending and without timer, and no
    script but the [s]-th rejects it when it fails to load. *)
Definition stranded (s p : nat) (w : World) : Prop :=
  promises w !! p = Some Pending
  ∧ disarmed p w
  ∧ ∀ i sc, head w !! i = Some sc → onerror_rejects sc = p → i = s.

(** *** The mapping library

    The calls the handler makes to the library, and a library that answers
    them. A call may be rejected; [searchByText] may leave [places]
    undefined. *)

Record Place := {
  id : JsValue;
  displayName : JsValue;
  formattedAddress : JsValue;
}.

Inductive Request :=
| ImportLibrary (name : jsstring)
| SearchByText (textQuery : jsstring) (fields : list jsstring)
               (maxResultCount : Z)
| FetchFields (placeId : jsstring) (requestedLanguage : jsstring)
              (fields : list jsstring).

Inductive Result (A : Type) :=
| Return (a : A)
| Throw (e : Error).
Arguments Return {A} a.
Arguments Throw {A} e.

Record Provider := {
  importLibrary : jsstring -> Result unit;
  searchByText : jsstring -> Result (option (list Place));
  fetchFields : jsstring -> Result Place;
}.

(** An [async] function: it adds the requests it makes to those made
    before it, and returns or throws (its promise is fulfilled or
    rejected). *)
Definition Async (A : Type) : Type := list Request -> Result A * list Request.

Definition ret {A} (a : A) : Async A := fun log => (Return a, log).

Definition throw {A} (e : Error) : Async A := fun log => (Throw e, log).

Definition bind {A B} (m : Async A) (k : A -> Async B) : Async B :=
  fun log =>
    match m log with
    | (Return a, log') => k a log'
    | (Throw e, log') => (Throw e, log')
    end.

(** [await] of a request to the library with the given answer. *)
Definition await {A} (rq : Request) (answer : Result A) : Async A :=
  fun log => (answer, log ++ [rq]).

Notation "'let*' x := m 'in' k" := (bind m (fun x => k))
  (at level 10, x name, k at level 200).

(** The anchored forms of the two regular expressions:
    [[?&]key=([^&]+)] and [\/place\/([^\/]+)]. *)
Definition param_at (key : jsstring) (s : jsstring) : option jsstring :=
  match s with
  | c :: rest =>
      if ((c =? 63) || (c =? 38))%Z then
        strip_prefix (key ++ [61%Z]) rest ≫= group_without 38
      else None
  | [] => None
  end.

Definition place_at (s : jsstring) : option jsstring :=
  strip_prefix (js "/place/") s ≫= group_without 47.

Definition extractPlaceIdFromUrl (input : jsstring) : option jsstring :=
  let placeIdMatch := search (param_at (js "place_id")) input in
  match placeIdMatch with
  | Some placeId => Some placeId
  | None =>
      let ftidMatch := search (param_at (js "ftid")) input in
      match ftidMatch with
      | Some ftid => Some ftid
      | None => None
      end
  end.

(** [extractNameFromUrl]: the name, [null], or the exception of
    [decodeURIComponent]. *)
Definition extractNameFromUrl (input : jsstring) : Result (option jsstring) :=
  let placeMatch := search place_at input in
  match placeMatch with
  | Some segment =>
      match decodeURIComponent (replace_plus segment) with
      | Some name => Return (Some name)
      | None => Throw URIError
      end
  | None => Return None
  end.

Definition requested_fields : list jsstring :=
  [js "id"; js "displayName"; js "formattedAddress"].

Section WithProvider.

Variable google : Provider.

Definition searchPlaceByText (searchQuery : jsstring) : Async Place :=
  let* _ := await (ImportLibrary (js "places"))
                  (importLibrary google (js "places")) in
  let* places := await (SearchByText searchQuery requested_fields 5)
                       (searchByText google searchQuery) in
  match places with
  | None | Some [] => throw NoResults
  | Some ((first :: _) as places) =>
      let* _ :=
        if 1 <? length places then
          let firstPlaceName := displayName first in
          let allSameName :=
            forallb (fun place => strict_eq (displayName place) firstPlaceName)
                    places in
          if negb allSameName then throw AmbiguousDifferentNames
          else if 2 <? length places then
            throw (AmbiguousSameNameMultipleLocations firstPlaceName)
          else ret tt
        else ret tt in
      ret first
  end.

Definition getPlaceById (placeId : jsstring) : Async Place :=
  let* _ := await (ImportLibrary (js "places"))
                  (importLibrary google (js "places")) in
  await (FetchFields placeId (js "en") requested_fields)
        (fetchFields google placeId).

(** [searchPlace]; the two tests of the source are on truthiness: an
    extracted identifier and an extracted name count when they are not
    empty. *)
Definition searchPlace (input : jsstring) : Async Place :=
  let extractedPlaceId := extractPlaceIdFromUrl input in
  match extractedPlaceId with
  | Some ((_ :: _) as placeId) => getPlaceById placeId
  | _ =>
      match extractNameFromUrl input with
      | Throw e => throw e
      | Return name =>
          let searchQuery :=
            match name with
            | Some ((_ :: _) as n) => n
            | _ => input
            end in
          searchPlaceByText searchQuery
      end
  end.

End WithProvider.

End PlacesHandler.

(** ** The page controller ([src/JS/main.js]) *)

Module Main.

Import PlacesHandler.

(** What [handleSearch] passes to [searchPlace]: the trimmed field, unless
    it is empty. *)
Definition search_input (value : jsstring) : option jsstring :=
  match trim value with
  | [] => None
  | input => Some input
  end.

(** The three texts [displayPlaceInfo] renders for a place. *)
Record Shown := {
  placeId : JsValue;
  placeName : JsValue;
  placeAddress : JsValue;
}.

Definition displayPlaceInfo (place : Place) : Shown := {|
  placeId := id place;
  placeName := or_else (displayName place) (JsString (js "N/A"));
  placeAddress := or_else (formattedAddress place) (JsString (js "N/A"));
|}.

End Main.

(** ** The key field, the stored settings and the links ([src/JS/main.js]) *)

Module Page.

Import PlacesHandler.

(** The bullet of a masked key. *)
Definition bullet : Z := 8226.

Definition maskApiKey (apiKey : jsstring) : jsstring :=
  if length apiKey <=? 6 then apiKey
  else replicate (length apiKey - 6) bullet ++ slice_last 6 apiKey.

(** [localStorage]: its items, and whether the browser lets the page read
    and write it; [getItem] and [setItem] throw when it does not. *)
Record LocalStorage := {
  items : gmap jsstring jsstring;
  readable : bool;
  writable : bool;
}.

(** [getItem]: [None] when it throws, [Some None] for [null]. *)
Definition getItem (name : jsstring) (st : LocalStorage)
  : option (option jsstring) :=
  if readable st then Some (items st !! name) else None.

(** [setItem]: [None] when it throws. *)
Definition setItem (name value : jsstring) (st : LocalStorage)
  : option LocalStorage :=
  if writable st then
    Some {| items := <[name := value]> (items st);
            readable := readable st;
            writable := writable st |}
  else None.

(** The [try]/[catch] wrappers: the status returned, and the storage left. *)
Definition setStored (name value : jsstring) (st : LocalStorage)
  : bool * LocalStorage :=
  match setItem name value st with
  | Some st' => (true, st')
  | None => (false, st)
  end.

Definition getStored (name : jsstring) (st : LocalStorage) : option jsstring :=
  match getItem name st with
  | Some value => value
  | None => None
  end.

Definition setStoredApiKey := setStored (js "google_api_key").
Definition getStoredApiKey := getStored (js "google_api_key").
Definition setStoredBusinessInput := setStored (js "business_input").
Definition getStoredBusinessInput := getStored (js "business_input").

(** The two other items the page writes hold JSON texts, taken here as
    they come: [setStoredSearchResult] and
    [qrCodeHandler.setStoredQrSettings]. *)
Definition setStoredSearchResult := setStored (js "last_search_result").
Definition setStoredQrSettings := setStored (js "qr_settings").

(** The state of the controller: the remembered key, the two input fields
    and the storage. *)
Record Page := {
  fullApiKey : jsstring;
  apiKey_value : jsstring;
  placeInput_value : jsstring;
  localStorage : LocalStorage;
}.

(** The page before [init] runs: nothing remembered, both fields empty. *)
Definition blank (st : LocalStorage) : Page :=
  {| fullApiKey := [];
     apiKey_value := [];
     placeInput_value := [];
     localStorage := st |}.

(** The first two steps of [loadSavedData] (lines 37 to 50): the stored key
    and the stored business input are put back. Neither can throw. *)
Definition restore_fields (pg : Page) : Page :=
  let pg1 :=
    match getStoredApiKey (localStorage pg) with
    | Some ((_ :: _) as savedKey) =>
        {| fullApiKey := savedKey;
           apiKey_value := maskApiKey savedKey;
           placeInput_value := placeInput_value pg;
           localStorage := localStorage pg |}
    | _ => pg
    end in
  match getStoredBusinessInput (localStorage pg1) with
  | Some ((_ :: _) as savedBusinessInput) =>
      {| fullApiKey := fullApiKey pg1;
         apiKey_value := apiKey_value pg1;
         placeInput_value := savedBusinessInput;
         localStorage := localStorage pg1 |}
  | _ => pg1
  end.

(** The text [getStoredSearchResult] reads, before it parses it. *)
Definition getStoredSearchResultText := getStored (js "last_search_result").

(** [loadSavedData]: the page it leaves, and whether it returns ([true])
    or throws ([false]). After the fields it reads the QR settings, which
    cannot throw and are only logged, and the last search result, which it
    hands to [displayStoredSearchResult]. That function parses nothing
    itself but builds the links with [encodeURIComponent] and the QR codes
    with the QR library, and either can throw; it is not modelled here but
    for that: [display_throws st] tells whether, over the storage [st],
    the stored text parses to a result and displaying it throws. It is
    asked only when there is a text to parse. *)
Definition loadSavedData (display_throws : LocalStorage -> bool) (pg : Page)
  : Page * bool :=
  let pg' := restore_fields pg in
  match getStoredSearchResultText (localStorage pg') with
  | Some (_ :: _) => (pg', negb (display_throws (localStorage pg')))
  | _ => (pg', true)
  end.

(** The state of the key, the fields and the storage once the document has
    loaded over a storage: what [loadSavedData] leaves, whether it returns
    or throws. *)
Definition opened (st : LocalStorage) : Page := restore_fields (blank st).

(** A document: the state of the page, and whether [setupEventListeners]
    has run, which [init] calls after [loadSavedData] and never reaches
    when that throws. *)
Record Document := {
  page : Page;
  listening : bool;
}.

(** [init], when the document has loaded over the storage [st]. *)
Definition init (display_throws : LocalStorage -> bool) (st : LocalStorage)
  : Document :=
  {| page := fst (loadSavedData display_throws (blank st));
     listening := snd (loadSavedData display_throws (blank st)) |}.

Definition is_empty (s : jsstring) : bool :=
  match s with [] => true | _ :: _ => false end.

(** The [focus] listener of the key field. *)
Definition focus (pg : Page) : Page :=
  if negb (is_empty (fullApiKey pg)) && includes bullet (apiKey_value pg) then
    {| fullApiKey := fullApiKey pg;
       apiKey_value := fullApiKey pg;
       placeInput_value := placeInput_value pg;
       localStorage := localStorage pg |}
  else pg.

(** What the [blur] listener and [handleSearch] do with a key that is not
    a masked one. *)
Definition remember (key : jsstring) (pg : Page) : Page :=
  {| fullApiKey := key;
     apiKey_value := maskApiKey key;
     placeInput_value := placeInput_value pg;
     localStorage := snd (setStoredApiKey key (localStorage pg)) |}.

(** The [blur] listener of the key field. *)
Definition blur (pg : Page) : Page :=
  let currentValue := trim (apiKey_value pg) in
  if negb (is_empty currentValue) && negb (includes bullet currentValue) then
    remember currentValue pg
  else pg.

(** The [input] listener of the place field. *)
Definition input_listener (pg : Page) : Page :=
  {| fullApiKey := fullApiKey pg;
     apiKey_value := apiKey_value pg;
     placeInput_value := placeInput_value pg;
     localStorage :=
       snd (setStoredBusinessInput (placeInput_value pg) (localStorage pg)) |}.

(** [handleSearch] up to its [try]: the page left, and the key and the
    input it goes on with ([loadGoogleMaps(fullApiKey)], then
    [searchPlace(input)]), or [None] when it shows the request to enter
    both and returns. *)
Definition handleSearch (pg : Page) : Page * option (jsstring * jsstring) :=
  let apiKey := trim (apiKey_value pg) in
  let input := trim (placeInput_value pg) in
  if is_empty apiKey || is_empty input then (pg, None)
  else
    let pg1 := if negb (includes bullet apiKey) then remember apiKey pg
               else pg in
    let pg2 :=
      {| fullApiKey := fullApiKey pg1;
         apiKey_value := apiKey_value pg1;
         placeInput_value := placeInput_value pg1;
         localStorage :=
           snd (setStoredBusinessInput input (localStorage pg1)) |} in
    (pg2, Some (fullApiKey pg2, input)).

(** What the user and the browser do to the page; [SaveResult] is the
    write of a search result when a search has succeeded, [SaveQrSettings]
    that of the QR settings when the correction level is changed.

    [act] is what an action does when the listener it goes to is set up;
    after [Reload] it takes them all to be, also where [init] is aborted
    before it reaches [setupEventListeners]. [step], below, follows
    [init] there. *)
Inductive Action :=
| EditKey (value : jsstring)
| Focus
| Blur
| EditPlace (value : jsstring)
| Click
| SaveResult (json : jsstring)
| SaveQrSettings (json : jsstring)
| Reload.

Definition act (a : Action) (pg : Page) : Page :=
  match a with
  | EditKey value =>
      {| fullApiKey := fullApiKey pg;
         apiKey_value := value;
         placeInput_value := placeInput_value pg;
         localStorage := localStorage pg |}
  | Focus => focus pg
  | Blur => blur pg
  | EditPlace value =>
      input_listener {| fullApiKey := fullApiKey pg;
                        apiKey_value := apiKey_value pg;
                        placeInput_value := value;
                        localStorage := localStorage pg |}
  | Click => fst (handleSearch pg)
  | SaveResult json =>
      {| fullApiKey := fullApiKey pg;
         apiKey_value := apiKey_value pg;
         placeInput_value := placeInput_value pg;
         localStorage := snd (setStoredSearchResult json (localStorage pg)) |}
  | SaveQrSettings json =>
      {| fullApiKey := fullApiKey pg;
         apiKey_value := apiKey_value pg;
         placeInput_value := placeInput_value pg;
         localStorage := snd (setStoredQrSettings json (localStorage pg)) |}
  | Reload => opened (localStorage pg)
  end.

Definition acts (l : list Action) (pg : Page) : Page :=
  foldl (fun pg a => act a pg) pg l.

(** What an action does to a document. Without listeners the user can
    still edit the two fields and load the page anew; nothing else
    happens, as the fetch button, the fields and the QR settings have no
    listener. *)
Definition step (display_throws : LocalStorage -> bool) (a : Action)
           (d : Document) : Document :=
  match a with
  | Reload => init display_throws (localStorage (page d))
  | _ =>
      if listening d then {| page := act a (page d); listening := true |}
      else
        match a with
        | EditKey _ => {| page := act a (page d); listening := false |}
        | EditPlace value =>
            {| page := {| fullApiKey := fullApiKey (page d);
                          apiKey_value := apiKey_value (page d);
                          placeInput_value := value;
                          localStorage := localStorage (page d) |};
               listening := false |}
        | _ => d
        end
  end.

Definition steps (display_throws : LocalStorage -> bool) (l : list Action)
           (d : Document) : Document :=
  foldl (fun d a => step display_throws a d) d l.

(** A key as the page remembers and stores it: not empty, without bullet,
    without white space around it. *)
Definition clean (key : jsstring) : Prop :=
  key ≠ [] ∧ includes bullet key = false ∧ trim key = key.

(** The invariant of the key: the remembered key, unless there is none, and
    the stored key, if there is one, are clean. *)
Definition key_inv (pg : Page) : Prop :=
  (fullApiKey pg = [] ∨ clean (fullApiKey pg))
  ∧ ∀ key, items (localStorage pg) !! js "google_api_key" = Some key → clean key.

(** The two links [displayPlaceInfo] builds; the second is [None] when
    [encodeURIComponent] throws. *)
Definition reviewUrl (shown : Main.Shown) : jsstring :=
  js "https://search.google.com/local/writereview?placeid="
    ++ ToString (Main.placeId shown).

Definition businessUrl (shown : Main.Shown) : option jsstring :=
  query ← encodeURIComponent
            (ToString (Main.placeName shown) ++ js " "
               ++ ToString (Main.placeAddress shown));
  Some (js "https://www.google.com/maps/search/?api=1&query=" ++ query
          ++ js "&query_place_id=" ++ ToString (Main.placeId shown)).

(** The worst case for a stored result: displaying it always throws, as
    when the QR library has not loaded. *)
Definition never_displays : LocalStorage -> bool := fun _ => true.

(** An empty storage that works, and one that cannot be written. *)
Definition fresh_storage : LocalStorage :=
  {| items := ∅; readable := true; writable := true |}.

Definition full_storage : LocalStorage :=
  {| items := ∅; readable := true; writable := false |}.


End Page.

Import PlacesHandler.

(** ** What the regular expressions match

    The patterns of the source, stated on the shape of the string: the
    relations below do not mention the matching functions. *)

Module Pattern.

(** [X] is a non-empty run without [c] that stops in front of [rest]: at
    the end of the string or at the next [c]. *)
Definition delimited (c : Z) (X rest : jsstring) : Prop :=
  X ≠ [] ∧ Forall (fun a => a ≠ c) X ∧ (rest = [] ∨ ∃ r, rest = c :: r).

(** [s] starts with [?key=X] or [&key=X], the value [X] running until the
    next [&] or the end of the string. *)
Definition param_match (key X s : jsstring) : Prop :=
  ∃ sep rest,
    s = sep :: key ++ 61%Z :: X ++ rest ∧ (sep = 63%Z ∨ sep = 38%Z)
    ∧ delimited 38 X rest.

(** [s] starts with [/place/X], the segment [X] running until the next [/]
    or the end of the string. *)
Definition place_match (X s : jsstring) : Prop :=
  ∃ rest, s = js "/place/" ++ X ++ rest ∧ delimited 47 X rest.

(** The pattern [M] occurs somewhere in [input]. *)
Definition occurs (M : jsstring -> jsstring -> Prop) (input : jsstring) : Prop :=
  ∃ pre suf X, input = pre ++ suf ∧ M X suf.

(** [X] is what the leftmost occurrence of [M] in [input] captures. *)
Definition leftmost (M : jsstring -> jsstring -> Prop) (input X : jsstring)
  : Prop :=
  ∃ pre suf,
    input = pre ++ suf ∧ M X suf
    ∧ ∀ pre' suf' Y, input = pre' ++ suf' → M Y suf' → length pre ≤ length pre'.

End Pattern.

Import Pattern.

(** ** Sample libraries and inputs used by the examples *)

Module Examples.

Definition branch (k : nat) : Place := {|
  id := JsString (js "ChIJ" ++ [(48 + Z.of_nat k)%Z]);
  displayName := JsString (js "Starbucks");
  formattedAddress := JsString (js "Main St " ++ [(48 + Z.of_nat k)%Z]);
|}.

(** A library that answers every text search with [n] branches of one
    chain, and every lookup with a record of that identifier. *)
Definition chain (n : nat) : Provider := {|
  importLibrary := fun _ => Return tt;
  searchByText := fun _ => Return (Some (map branch (seq 0 n)));
  fetchFields := fun i => Return {| id := JsString i;
                                    displayName := JsString (js "Starbucks");
                                    formattedAddress := JsNull |};
|}.

(** A library whose only result has neither a name nor an address. *)
Definition nameless : Place := {|
  id := JsString (js "ChIJ0");
  displayName := JsUndefined;
  formattedAddress := JsUndefined;
|}.

Definition anonymous : Provider := {|
  importLibrary := fun _ => Return tt;
  searchByText := fun _ => Return (Some [nameless]);
  fetchFields := fun _ => Return nameless;
|}.

(** A library that answers a text search with two different businesses. *)
Definition rival : Place := {|
  id := JsString (js "ChIJ9");
  displayName := JsString (js "Starbucks Reserve");
  formattedAddress := JsString (js "Pike St");
|}.

Definition rivals : Provider := {|
  importLibrary := fun _ => Return tt;
  searchByText := fun _ => Return (Some [branch 0; rival]);
  fetchFields := fun _ => Return rival;
|}.

Definition key : jsstring := js "AIzaSy".

End Examples.

(** ** More sample libraries *)

Module Samples.

(** A library that cannot be imported. *)
Definition offline : Provider := {|
  importLibrary := fun _ => Throw (ProviderError (js "The library places is unknown"));
  searchByText := fun _ => Return None;
  fetchFields := fun _ => Throw (ProviderError (js "unreachable"));
|}.


(** Two branches of one chain, and the same two at other addresses and
    under other identifiers. *)
Definition here : list Place :=
  [Examples.branch 0; Examples.branch 1].

Definition elsewhere : list Place :=
  [{| id := JsString (js "ChIJx"); displayName := JsString (js "Starbucks");
      formattedAddress := JsNull |};
   {| id := JsNull; displayName := JsString (js "Starbucks");
      formattedAddress := JsString (js "5th Ave") |}].

Definition answering (places : list Place) : Provider := {|
  importLibrary := fun _ => Return tt;
  searchByText := fun _ => Return (Some places);
  fetchFields := fun _ => Throw (ProviderError (js "NOT_FOUND"));
|}.

End Samples.

(** ** Tactics for the arithmetic of code points *)

(** Decide the comparisons of the goal by case analysis. *)
Ltac decide_tests :=
  repeat match goal with
         | |- context [(?a <? ?b)%Z] => destruct (Z.ltb_spec a b); try lia
         | |- context [(?a <=? ?b)%Z] => destruct (Z.leb_spec a b); try lia
         | |- context [(?a =? ?b)%Z] => destruct (Z.eqb_spec a b); try lia
         end.

(** Linear arithmetic with quotients and remainders by constants. *)
Ltac div_lia := Z.to_euclidean_division_equations; lia.

(** Replace the comparisons of the goal by their values. *)
Ltac decide_div :=
  repeat first
    [ match goal with
      | |- context [(?a <? ?b)%Z] =>
          replace (a <? b)%Z with true by (symmetry; apply Z.ltb_lt; div_lia)
      end
    | match goal with
      | |- context [(?a <? ?b)%Z] =>
          replace (a <? b)%Z with false by (symmetry; apply Z.ltb_ge; div_lia)
      end ].

(** ** Facts about the string functions *)

Section StringFacts.

Local Open Scope Z_scope.

Lemma strip_prefix_Some (p s r : jsstring) :
  strip_prefix p s = Some r ↔ s = p ++ r.
Proof.
  revert s. induction p as [|a p IH]; intros s; simpl.
  - split; [intros [= ->]; reflexivity | intros ->; reflexivity].
  - destruct s as [|b s]; [split; discriminate|].
    destruct (Z.eqb_spec a b) as [->|Hne].
    + rewrite IH. split; [intros ->; reflexivity | intros [= ->]; reflexivity].
    + split; [discriminate | intros [= -> _]; contradiction].
Qed.

Lemma run_without_Forall (c : Z) (s : jsstring) :
  Forall (fun a => a ≠ c) (run_without c s).
Proof.
  induction s as [|a s IH]; simpl; [constructor|].
  destruct (Z.eqb_spec a c); [constructor | constructor; assumption].
Qed.

Lemma run_without_split (c : Z) (s : jsstring) :
  ∃ rest, s = run_without c s ++ rest ∧ (rest = [] ∨ ∃ r, rest = c :: r).
Proof.
  induction s as [|a s (rest & Hs & Hrest)]; simpl.
  - exists []. split; [reflexivity | left; reflexivity].
  - destruct (Z.eqb_spec a c) as [->|Hne].
    + exists (c :: s). split; [reflexivity | right; eexists; reflexivity].
    + exists rest. split; [simpl; f_equal; exact Hs | exact Hrest].
Qed.

Lemma run_without_unique (c : Z) (X rest : jsstring) :
  Forall (fun a => a ≠ c) X → (rest = [] ∨ ∃ r, rest = c :: r) →
  run_without c (X ++ rest) = X.
Proof.
  intros HX Hrest. induction HX as [|a X Ha _ IH]; simpl.
  - destruct Hrest as [->|(r & ->)]; simpl; [reflexivity|].
    rewrite Z.eqb_refl. reflexivity.
  - destruct (Z.eqb_spec a c); [contradiction | f_equal; exact IH].
Qed.

Lemma group_without_Some (c : Z) (s X : jsstring) :
  group_without c s = Some X ↔ ∃ rest, s = X ++ rest ∧ delimited c X rest.
Proof.
  unfold group_without, delimited. split.
  - intros H. destruct (run_without_split c s) as (rest & Hs & Hrest).
    pose proof (run_without_Forall c s) as HF.
    destruct (run_without c s) as [|a l] eqn:E; [discriminate|].
    injection H as <-. exists rest. repeat split; try assumption. discriminate.
  - intros (rest & -> & Hne & HF & Hrest).
    rewrite run_without_unique by assumption.
    destruct X; [contradiction | reflexivity].
Qed.

Lemma param_at_Some (key s X : jsstring) :
  param_at key s = Some X ↔ param_match key X s.
Proof.
  unfold param_at, param_match. split.
  - destruct s as [|sep s]; [discriminate|].
    destruct ((sep =? 63) || (sep =? 38))%Z eqn:Hsep; [|discriminate].
    intros H. apply bind_Some in H as (after & Hp & Hg).
    apply strip_prefix_Some in Hp. apply group_without_Some in Hg as (rest & -> & Hd).
    exists sep, rest. subst s. rewrite <- app_assoc. simpl.
    split; [reflexivity | split; [lia | exact Hd]].
  - intros (sep & rest & -> & Hsep & Hd).
    replace ((sep =? 63) || (sep =? 38))%Z with true by lia.
    apply bind_Some. exists (X ++ rest). split.
    + apply strip_prefix_Some. rewrite <- app_assoc. reflexivity.
    + apply group_without_Some. exists rest. split; [reflexivity | exact Hd].
Qed.

Lemma place_at_Some (s X : jsstring) :
  place_at s = Some X ↔ place_match X s.
Proof.
  unfold place_at, place_match. split.
  - intros H. apply bind_Some in H as (after & Hp & Hg).
    apply strip_prefix_Some in Hp. apply group_without_Some in Hg as (rest & -> & Hd).
    exists rest. split; assumption.
  - intros (rest & -> & Hd). apply bind_Some. exists (X ++ rest). split.
    + apply strip_prefix_Some. reflexivity.
    + apply group_without_Some. exists rest. split; [reflexivity | exact Hd].
Qed.

(** [search] returns the match at the leftmost position. *)
Lemma search_Some_inv {A} (m : jsstring -> option A) (s : jsstring) (v : A) :
  search m s = Some v →
  ∃ pre suf, s = pre ++ suf ∧ m suf = Some v
    ∧ ∀ pre' suf', s = pre' ++ suf' → is_Some (m suf') →
        (length pre ≤ length pre')%nat.
Proof.
  induction s as [|a t IH]; simpl.
  - destruct (m []) eqn:E; [|discriminate]. intros [= ->].
    exists [], []. repeat split; [exact E|]. intros; simpl; lia.
  - destruct (m (a :: t)) eqn:E.
    + intros [= ->]. exists [], (a :: t). repeat split; [exact E|].
      intros; simpl; lia.
    + intros H. destruct (IH H) as (pre & suf & -> & Hm & Hmin).
      exists (a :: pre), suf. repeat split; [exact Hm|].
      intros pre' suf' Heq Hs. destruct pre' as [|b pre'].
      * simpl in Heq. subst suf'. rewrite E in Hs. destruct Hs; discriminate.
      * injection Heq as <- Heq. simpl. apply le_n_S. eapply Hmin; eassumption.
Qed.

Lemma search_None_inv {A} (m : jsstring -> option A) (pre suf : jsstring) :
  search m (pre ++ suf) = None → m suf = None.
Proof.
  induction pre as [|a pre IH]; simpl.
  - destruct suf; simpl; destruct (m _); congruence.
  - destruct (m (a :: pre ++ suf)); [discriminate | exact IH].
Qed.

Lemma search_leftmost {A} (m : jsstring -> option A) (pre suf : jsstring) (v : A) :
  m suf = Some v →
  (∀ pre' suf', pre ++ suf = pre' ++ suf' → is_Some (m suf') →
     (length pre ≤ length pre')%nat) →
  search m (pre ++ suf) = Some v.
Proof.
  intros Hm Hmin. destruct (search m (pre ++ suf)) as [v'|] eqn:E.
  - apply search_Some_inv in E as (pre2 & suf2 & Heq & Hm2 & Hmin2).
    assert (length pre = length pre2) as Hlen.
    { apply Nat.le_antisymm.
      - eapply Hmin; [exact Heq | rewrite Hm2; eexists; reflexivity].
      - eapply Hmin2; [reflexivity | rewrite Hm; eexists; reflexivity]. }
    apply app_inj_1 in Heq as [_ <-]; [congruence | exact Hlen].
  - apply search_None_inv in E. congruence.
Qed.

(** The link between [search] on an anchored matcher and the leftmost
    occurrence of the pattern it decides. *)
Lemma search_is_leftmost (m : jsstring -> option jsstring)
      (M : jsstring -> jsstring -> Prop) (input X : jsstring) :
  (∀ s Y, m s = Some Y ↔ M Y s) →
  search m input = Some X ↔ leftmost M input X.
Proof.
  intros HmM. split.
  - intros H. apply search_Some_inv in H as (pre & suf & -> & Hm & Hmin).
    exists pre, suf. repeat split; [apply HmM; exact Hm|].
    intros pre' suf' Y Heq HY. eapply Hmin; [exact Heq|].
    apply HmM in HY. rewrite HY. eexists; reflexivity.
  - intros (pre & suf & -> & HM & Hmin). apply search_leftmost.
    + apply HmM; exact HM.
    + intros pre' suf' Heq [Y HY]. eapply Hmin; [exact Heq | apply HmM; exact HY].
Qed.

Lemma search_is_absent (m : jsstring -> option jsstring)
      (M : jsstring -> jsstring -> Prop) (input : jsstring) :
  (∀ s Y, m s = Some Y ↔ M Y s) →
  search m input = None ↔ ¬ occurs M input.
Proof.
  intros HmM. split.
  - intros H (pre & suf & X & -> & HX). apply search_None_inv in H.
    apply HmM in HX. congruence.
  - intros Hno. destruct (search m input) as [v|] eqn:E; [|reflexivity].
    exfalso. apply Hno. apply search_Some_inv in E as (pre & suf & -> & Hm & _).
    exists pre, suf, v. split; [reflexivity | apply HmM; exact Hm].
Qed.

(** A match is never empty, so the truthiness tests of [searchPlace] on an
    extracted identifier never fail. *)
Lemma search_param_nonempty (key input X : jsstring) :
  search (param_at key) input = Some X → X ≠ [].
Proof.
  intros H. apply search_Some_inv in H as (_ & suf & _ & Hm & _).
  apply param_at_Some in Hm as (_ & _ & _ & _ & Hne & _). exact Hne.
Qed.

End StringFacts.

(** ** Place resolution *)

Section Resolution.

Variable google : Provider.

Lemma allSameName_true (name : JsValue) (places : list Place) :
  forallb (fun place => strict_eq (displayName place) name) places = true
  ↔ ∀ p, p ∈ places → displayName p = name.
Proof.
  rewrite forallb_forall. unfold strict_eq. split; intros H p Hp.
  - apply list_elem_of_In in Hp. apply H in Hp.
    apply bool_decide_eq_true in Hp. exact Hp.
  - apply bool_decide_eq_true. apply H. apply list_elem_of_In. exact Hp.
Qed.

Lemma allSameName_false (name : JsValue) (places : list Place) (p : Place) :
  p ∈ places → displayName p ≠ name →
  forallb (fun place => strict_eq (displayName place) name) places = false.
Proof.
  intros Hp Hne. apply not_true_is_false. intros H.
  apply Hne. eapply allSameName_true; eassumption.
Qed.

(** The requests of a text search whose two calls are answered. *)
Lemma searchPlaceByText_requests q places log :
  importLibrary google (js "places") = Return tt →
  searchByText google q = Return places →
  snd (searchPlaceByText google q log)
  = log ++ [ImportLibrary (js "places"); SearchByText q requested_fields 5].
Proof.
  intros Hi Hs. unfold searchPlaceByText, bind, await. rewrite Hi, Hs.
  rewrite <- app_assoc. simpl.
  destruct places as [[|first rest]|]; try reflexivity.
  destruct rest as [|second rest]; [reflexivity|]. simpl.
  destruct (strict_eq (displayName first) (displayName first)); simpl;
    [|reflexivity].
  destruct (strict_eq (displayName second) (displayName first) && _); simpl;
    [|reflexivity].
  destruct rest; reflexivity.
Qed.

Lemma text_search_none q log :
  importLibrary google (js "places") = Return tt →
  (searchByText google q = Return None ∨ searchByText google q = Return (Some [])) →
  fst (searchPlaceByText google q log) = Throw NoResults.
Proof.
  intros Hi [Hs|Hs]; unfold searchPlaceByText, bind, await;
    rewrite Hi, Hs; reflexivity.
Qed.

Lemma text_search_single q log p :
  importLibrary google (js "places") = Return tt →
  searchByText google q = Return (Some [p]) →
  fst (searchPlaceByText google q log) = Return p.
Proof.
  intros Hi Hs. unfold searchPlaceByText, bind, await.
  rewrite Hi, Hs. reflexivity.
Qed.

Lemma text_search_different q log first rest p :
  importLibrary google (js "places") = Return tt →
  searchByText google q = Return (Some (first :: rest)) →
  p ∈ rest → displayName p ≠ displayName first →
  fst (searchPlaceByText google q log) = Throw AmbiguousDifferentNames.
Proof.
  intros Hi Hs Hp Hne. unfold searchPlaceByText, bind, await.
  rewrite Hi, Hs. cbv beta iota zeta.
  destruct rest as [|second rest]; [inversion Hp|].
  change (1 <? length (first :: second :: rest)) with true. cbv iota.
  rewrite (allSameName_false _ _ p); [reflexivity | | exact Hne].
  right. exact Hp.
Qed.

Lemma text_search_same q log first rest :
  importLibrary google (js "places") = Return tt →
  searchByText google q = Return (Some (first :: rest)) →
  (∀ p, p ∈ rest → displayName p = displayName first) →
  fst (searchPlaceByText google q log)
  = if 2 <=? length rest
    then Throw (AmbiguousSameNameMultipleLocations (displayName first))
    else Return first.
Proof.
  intros Hi Hs Hall. unfold searchPlaceByText, bind, await.
  rewrite Hi, Hs. cbv beta iota zeta.
  destruct rest as [|second rest]; [reflexivity|].
  change (1 <? length (first :: second :: rest)) with true. cbv iota.
  assert (forallb (fun place => strict_eq (displayName place) (displayName first))
                  (first :: second :: rest) = true) as ->.
  { apply allSameName_true. intros p Hp. apply elem_of_cons in Hp as [->|Hp];
      [reflexivity | apply Hall; exact Hp]. }
  simpl. destruct rest; reflexivity.
Qed.

End Resolution.

(** ** Decoding *)

Section Decoding.

Lemma fmap_cons_nonempty {A} (a : A) (o : option (list A)) (r : list A) :
  cons a <$> o = Some r → r ≠ [].
Proof. destruct o; simpl; intros [= <-]; discriminate. Qed.

Lemma emit_nonempty (lo V : Z) (o : option jsstring) (r : jsstring) :
  emit lo V o = Some r → r ≠ [].
Proof.
  unfold emit, UTF16EncodeCodePoint.
  destruct (valid_code_point lo V); [|discriminate].
  destruct o; simpl; [|discriminate]. intros [= <-].
  destruct (V <? 65536)%Z; discriminate.
Qed.

Lemma unescape_nonempty (s : jsstring) (ts : list token) :
  unescape s = Some ts → s ≠ [] → ts ≠ [].
Proof.
  destruct s as [|c rest]; [contradiction|]. simpl. intros H _.
  destruct (c =? 37)%Z; [|eapply fmap_cons_nonempty; exact H].
  destruct rest as [|h1 [|h2 rest']]; try discriminate.
  destruct (ParseHexOctet h1 h2); [|discriminate].
  eapply fmap_cons_nonempty; exact H.
Qed.

Lemma utf8_nonempty (ts : list token) (r : jsstring) :
  utf8 ts = Some r → ts ≠ [] → r ≠ [].
Proof.
  destruct ts as [|t ts]; [contradiction|]. intros H _. simpl in H.
  destruct t as [c|B]; [eapply fmap_cons_nonempty; exact H|].
  repeat case_match; try discriminate;
    first [eapply fmap_cons_nonempty; exact H | eapply emit_nonempty; exact H].
Qed.

(** Decoding never turns a non-empty string into the empty one. *)
Lemma decodeURIComponent_nonempty (s r : jsstring) :
  decodeURIComponent s = Some r → s ≠ [] → r ≠ [].
Proof.
  unfold decodeURIComponent. intros H Hs.
  apply bind_Some in H as (ts & Hu & Hd).
  eapply utf8_nonempty; [exact Hd|]. eapply unescape_nonempty; eassumption.
Qed.

Lemma replace_plus_nonempty (s : jsstring) : s ≠ [] → replace_plus s ≠ [].
Proof. destruct s; [contradiction | discriminate]. Qed.

End Decoding.

(** ** The two paths of [searchPlace] *)

Section Paths.

Variable google : Provider.

Lemma extractPlaceIdFromUrl_Some (input X : jsstring) :
  extractPlaceIdFromUrl input = Some X
  ↔ leftmost (param_match (js "place_id")) input X
    ∨ (¬ occurs (param_match (js "place_id")) input
       ∧ leftmost (param_match (js "ftid")) input X).
Proof.
  unfold extractPlaceIdFromUrl.
  pose proof (search_is_leftmost _ _ input X (param_at_Some (js "place_id"))) as Hp.
  pose proof (search_is_absent _ _ input (param_at_Some (js "place_id"))) as Hpn.
  pose proof (search_is_leftmost _ _ input X (param_at_Some (js "ftid"))) as Hf.
  destruct (search (param_at (js "place_id")) input) as [v|].
  - split.
    + intros [= ->]. left. apply Hp. reflexivity.
    + intros [H|[Hno _]].
      * apply Hp in H. exact H.
      * assert (Some v = None) by (apply Hpn; exact Hno). discriminate.
  - split.
    + intros H. right. split; [apply Hpn; reflexivity|].
      apply Hf. destruct (search (param_at (js "ftid")) input); congruence.
    + intros [H|[_ H]].
      * apply Hp in H. discriminate.
      * apply Hf in H. rewrite H. reflexivity.
Qed.

Lemma extractPlaceIdFromUrl_None (input : jsstring) :
  extractPlaceIdFromUrl input = None
  ↔ ¬ occurs (param_match (js "place_id")) input
    ∧ ¬ occurs (param_match (js "ftid")) input.
Proof.
  unfold extractPlaceIdFromUrl.
  pose proof (search_is_absent _ _ input (param_at_Some (js "place_id"))) as Hp.
  pose proof (search_is_absent _ _ input (param_at_Some (js "ftid"))) as Hf.
  destruct (search (param_at (js "place_id")) input) as [v|].
  - split; [discriminate|]. intros [Hno _]. apply Hp in Hno. discriminate.
  - destruct (search (param_at (js "ftid")) input) as [v|].
    + split; [discriminate|]. intros [_ Hno]. apply Hf in Hno. discriminate.
    + split; [|reflexivity]. intros _. split; [apply Hp | apply Hf]; reflexivity.
Qed.

Lemma extractPlaceIdFromUrl_nonempty (input X : jsstring) :
  extractPlaceIdFromUrl input = Some X → X ≠ [].
Proof.
  unfold extractPlaceIdFromUrl.
  destruct (search (param_at (js "place_id")) input) as [v|] eqn:Ep.
  - intros [= <-]. eapply search_param_nonempty; exact Ep.
  - destruct (search (param_at (js "ftid")) input) as [v|] eqn:Ef; [|discriminate].
    intros [= <-]. eapply search_param_nonempty; exact Ef.
Qed.

(** With an identifier, [searchPlace] is [getPlaceById] on it. *)
Lemma searchPlace_by_id (input X : jsstring) (log : list Request) :
  extractPlaceIdFromUrl input = Some X →
  searchPlace google input log = getPlaceById google X log.
Proof.
  intros H. pose proof (extractPlaceIdFromUrl_nonempty _ _ H) as Hne.
  unfold searchPlace. rewrite H. destruct X; [contradiction | reflexivity].
Qed.

(** Without one, it is [searchPlaceByText] on the extracted name or on the
    input, unless the extraction throws. *)
Lemma searchPlace_by_text (input : jsstring) (log : list Request) :
  extractPlaceIdFromUrl input = None →
  searchPlace google input log
  = match search place_at input with
    | Some segment =>
        match decodeURIComponent (replace_plus segment) with
        | Some name => searchPlaceByText google name log
        | None => (Throw URIError, log)
        end
    | None => searchPlaceByText google input log
    end.
Proof.
  intros H. unfold searchPlace, extractNameFromUrl. rewrite H.
  destruct (search place_at input) as [segment|] eqn:Es; [|reflexivity].
  destruct (decodeURIComponent (replace_plus segment)) as [name|] eqn:Ed;
    [|reflexivity].
  assert (name ≠ []) as Hne.
  { eapply decodeURIComponent_nonempty; [exact Ed|].
    apply replace_plus_nonempty.
    apply (search_is_leftmost _ _ input segment place_at_Some) in Es
      as (_ & suf & _ & (rest & _ & Hseg & _) & _).
    exact Hseg. }
  destruct name; [contradiction | reflexivity].
Qed.

Lemma getPlaceById_answered (X : jsstring) (log : list Request) :
  importLibrary google (js "places") = Return tt →
  getPlaceById google X log
  = (fetchFields google X,
     log ++ [ImportLibrary (js "places"); FetchFields X (js "en") requested_fields]).
Proof.
  intros Hi. unfold getPlaceById, bind, await. rewrite Hi.
  rewrite <- app_assoc. reflexivity.
Qed.

Lemma getPlaceById_requests (X : jsstring) (log : list Request) (rq : Request) :
  rq ∈ snd (getPlaceById google X log) →
  rq ∈ log ∨ rq = ImportLibrary (js "places")
  ∨ rq = FetchFields X (js "en") requested_fields.
Proof.
  unfold getPlaceById, bind, await.
  destruct (importLibrary google (js "places")); simpl; intros H;
    repeat (apply elem_of_app in H as [H|H]);
    try (apply list_elem_of_singleton in H); auto.
Qed.

Lemma getPlaceById_throws (X : jsstring) (log : list Request) (e : Error) :
  fst (getPlaceById google X log) = Throw e →
  importLibrary google (js "places") = Throw e ∨ fetchFields google X = Throw e.
Proof.
  unfold getPlaceById, bind, await.
  destruct (importLibrary google (js "places")) as [[]|e0]; simpl; intros H.
  - right. exact H.
  - left. injection H as ->. reflexivity.
Qed.

Lemma getPlaceById_returns (X : jsstring) (log : list Request) (p : Place) :
  fst (getPlaceById google X log) = Return p → fetchFields google X = Return p.
Proof.
  unfold getPlaceById, bind, await.
  destruct (importLibrary google (js "places")); simpl; [auto | discriminate].
Qed.

(** A text search returns the first record of the answer, untouched. *)
Lemma searchPlaceByText_returns (q : jsstring) (log : list Request) (p : Place) :
  fst (searchPlaceByText google q log) = Return p →
  ∃ rest, searchByText google q = Return (Some (p :: rest)).
Proof.
  unfold searchPlaceByText, bind, await.
  destruct (importLibrary google (js "places")); [|discriminate].
  destruct (searchByText google q) as [[[|first rest]|]|]; try discriminate.
  cbv beta iota zeta.
  destruct (1 <? length (first :: rest)).
  - destruct (negb _); [discriminate|].
    destruct (2 <? length (first :: rest)); [discriminate|].
    simpl. intros [= ->]. eexists; reflexivity.
  - simpl. intros [= ->]. eexists; reflexivity.
Qed.

End Paths.

(** ** Properties of the specification: place resolution *)

(** C1. A text search that is answered is disambiguated in this order: no
    results (or no list at all) fail with NoResults; a single result is
    returned; with several results, a display name that differs from the
    first one fails with AmbiguousDifferentNames, whatever the count; with
    equal names, two results return the first and three or more fail with
    AmbiguousSameNameMultipleLocations. *)
Theorem searchPlaceByText_disambiguation
        (google : Provider) (q : jsstring) (places : option (list Place))
        (log : list Request) :
  importLibrary google (js "places") = Return tt →
  searchByText google q = Return places →
  let outcome := fst (searchPlaceByText google q log) in
  (places = None ∨ places = Some [] → outcome = Throw NoResults)
  ∧ (∀ p, places = Some [p] → outcome = Return p)
  ∧ (∀ first rest p,
       places = Some (first :: rest) → p ∈ rest →
       displayName p ≠ displayName first →
       outcome = Throw AmbiguousDifferentNames)
  ∧ (∀ first second,
       places = Some [first; second] →
       displayName second = displayName first →
       outcome = Return first)
  ∧ (∀ first rest,
       places = Some (first :: rest) → 2 ≤ length rest →
       (∀ p, p ∈ rest → displayName p = displayName first) →
       outcome = Throw (AmbiguousSameNameMultipleLocations (displayName first))).
Proof.
  intros Hi Hs outcome. subst outcome. repeat split.
  - intros [->| ->]; apply text_search_none; auto.
  - intros p ->. apply text_search_single; assumption.
  - intros first rest p -> Hp Hne. eapply text_search_different; eassumption.
  - intros first second -> Hsame.
    rewrite (text_search_same google q log first [second]); auto.
    intros p Hp. apply list_elem_of_singleton in Hp as ->. exact Hsame.
  - intros first rest -> Hlen Hall.
    rewrite (text_search_same google q log first rest); auto.
    destruct (Nat.leb_spec 2 (length rest)); [reflexivity | lia].
Qed.

Lemma searchPlaceByText_disambiguation_witness :
  fst (searchPlaceByText (Examples.chain 0) (js "Starbucks") []) = Throw NoResults
  ∧ fst (searchPlaceByText (Examples.chain 1) (js "Starbucks") [])
    = Return (Examples.branch 0)
  ∧ fst (searchPlaceByText Examples.rivals (js "Starbucks") [])
    = Throw AmbiguousDifferentNames
  ∧ fst (searchPlaceByText (Examples.chain 2) (js "Starbucks") [])
    = Return (Examples.branch 0)
  ∧ fst (searchPlaceByText (Examples.chain 4) (js "Starbucks") [])
    = Throw (AmbiguousSameNameMultipleLocations (JsString (js "Starbucks"))).
Proof.
  refine (conj _ (conj _ (conj _ (conj _ _)))).
  - apply (searchPlaceByText_disambiguation
             (Examples.chain 0) (js "Starbucks") (Some []) [] eq_refl eq_refl).
    right. reflexivity.
  - apply (searchPlaceByText_disambiguation
             (Examples.chain 1) (js "Starbucks") _ [] eq_refl eq_refl).
    reflexivity.
  - apply (proj1 (proj2 (proj2 (searchPlaceByText_disambiguation
             Examples.rivals (js "Starbucks") _ [] eq_refl eq_refl)))
             (Examples.branch 0) [Examples.rival] Examples.rival eq_refl).
    + left.
    + discriminate.
  - apply (proj1 (proj2 (proj2 (proj2 (searchPlaceByText_disambiguation
             (Examples.chain 2) (js "Starbucks") _ [] eq_refl eq_refl))))
             (Examples.branch 0) (Examples.branch 1) eq_refl eq_refl).
  - apply (proj2 (proj2 (proj2 (proj2 (searchPlaceByText_disambiguation
             (Examples.chain 4) (js "Starbucks") _ [] eq_refl eq_refl))))
             (Examples.branch 0)
             [Examples.branch 1; Examples.branch 2; Examples.branch 3] eq_refl).
    + simpl. lia.
    + intros p Hp. repeat (apply elem_of_cons in Hp as [->|Hp]; [reflexivity|]).
      inversion Hp.
Defined.

(** C8, as stated, fails: three and four branches of one chain are rejected
    with the same error, so nothing in the error tells the count. *)
Lemma same_name_error_without_count :
  fst (searchPlaceByText (Examples.chain 3) (js "Starbucks") [])
  = Throw (AmbiguousSameNameMultipleLocations (JsString (js "Starbucks")))
  ∧ fst (searchPlaceByText (Examples.chain 4) (js "Starbucks") [])
    = Throw (AmbiguousSameNameMultipleLocations (JsString (js "Starbucks")))
  ∧ ¬ ∃ count_of : Error → nat,
        ∀ n e, 3 ≤ n →
          fst (searchPlaceByText (Examples.chain n) (js "Starbucks") []) = Throw e →
          count_of e = n.
Proof.
  split; [reflexivity | split; [reflexivity|]].
  intros (count_of & H).
  pose proof (H 3 _ (le_n 3) eq_refl) as H3.
  pose proof (H 4 _ (le_S _ _ (le_n 3)) eq_refl) as H4.
  rewrite H3 in H4. discriminate.
Qed.

(** C8, amended. Three or more results that share the display name of the
    first are rejected with AmbiguousSameNameMultipleLocations, which
    carries that display name, quoted in its message, and nothing else. *)
Theorem same_name_error_carries_name
        (google : Provider) (q : jsstring) (first : Place) (rest : list Place)
        (log : list Request) :
  importLibrary google (js "places") = Return tt →
  searchByText google q = Return (Some (first :: rest)) →
  2 ≤ length rest →
  (∀ p, p ∈ rest → displayName p = displayName first) →
  ∃ e,
    fst (searchPlaceByText google q log) = Throw e
    ∧ e = AmbiguousSameNameMultipleLocations (displayName first)
    ∧ message e
      = js "Multiple locations for " ++ [34%Z] ++ ToString (displayName first)
          ++ [34%Z] ++ js " found. Please include city or address in your search.".
Proof.
  intros Hi Hs Hlen Hall. eexists. split; [|split; reflexivity].
  rewrite (text_search_same google q log first rest); auto.
  destruct (Nat.leb_spec 2 (length rest)); [reflexivity | lia].
Qed.

Lemma same_name_error_carries_name_witness :
  ∃ e,
    fst (searchPlaceByText (Examples.chain 4) (js "Starbucks") []) = Throw e
    ∧ e = AmbiguousSameNameMultipleLocations (JsString (js "Starbucks"))
    ∧ message e
      = js "Multiple locations for " ++ [34%Z] ++ js "Starbucks"
          ++ [34%Z] ++ js " found. Please include city or address in your search.".
Proof.
  apply (same_name_error_carries_name
           (Examples.chain 4) (js "Starbucks") (Examples.branch 0)
           [Examples.branch 1; Examples.branch 2; Examples.branch 3] []
           eq_refl eq_refl).
  - simpl. lia.
  - intros p Hp. repeat (apply elem_of_cons in Hp as [->|Hp]; [reflexivity|]).
    inversion Hp.
Defined.

(** C9, as stated, fails: [searchPlace] hands back a record whose name and
    address are undefined when the library supplies none. *)
Lemma resolve_returns_absent_fields :
  fst (searchPlace Examples.anonymous (js "Joe's Pizza") [])
  = Return Examples.nameless
  ∧ fst (searchPlace Examples.anonymous
                     (js "https://maps.google.com/?place_id=ChIJ0") [])
    = Return Examples.nameless
  ∧ displayName Examples.nameless = JsUndefined
  ∧ formattedAddress Examples.nameless = JsUndefined.
Proof. vm_compute. repeat split. Qed.

(** C9, amended. The record [searchPlace] returns is the record of the
    library, unchanged: the one fetched for the identifier, or the first of
    the search results. The "N/A" marker is put in by [displayPlaceInfo]:
    the name and the address it shows are those of the record when they are
    present and not empty, and "N/A" otherwise, so they are never absent;
    the identifier is shown as the library gave it. *)
Theorem normalization_is_in_displayPlaceInfo
        (google : Provider) (input : jsstring) (log : list Request) (p : Place) :
  fst (searchPlace google input log) = Return p →
  ((∃ X, extractPlaceIdFromUrl input = Some X ∧ fetchFields google X = Return p)
   ∨ (∃ q rest, searchByText google q = Return (Some (p :: rest))))
  ∧ Main.placeId (Main.displayPlaceInfo p) = id p
  ∧ Main.placeName (Main.displayPlaceInfo p)
    = (if truthy (displayName p) then displayName p else JsString (js "N/A"))
  ∧ Main.placeAddress (Main.displayPlaceInfo p)
    = (if truthy (formattedAddress p) then formattedAddress p
       else JsString (js "N/A"))
  ∧ truthy (Main.placeName (Main.displayPlaceInfo p)) = true
  ∧ truthy (Main.placeAddress (Main.displayPlaceInfo p)) = true.
Proof.
  intros H. split.
  - destruct (extractPlaceIdFromUrl input) as [X|] eqn:E.
    + left. exists X. split; [reflexivity|].
      rewrite (searchPlace_by_id google input X log E) in H.
      eapply getPlaceById_returns; exact H.
    + right. rewrite (searchPlace_by_text google input log E) in H.
      destruct (search place_at input) as [segment|].
      * destruct (decodeURIComponent (replace_plus segment)) as [name|];
          [|discriminate].
        apply searchPlaceByText_returns in H as (rest & H). eauto.
      * apply searchPlaceByText_returns in H as (rest & H). eauto.
  - unfold Main.displayPlaceInfo, or_else. simpl.
    split; [reflexivity|]. split; [reflexivity|]. split; [reflexivity|].
    split.
    + destruct (truthy (displayName p)) eqn:Et; [exact Et | reflexivity].
    + destruct (truthy (formattedAddress p)) eqn:Et; [exact Et | reflexivity].
Qed.

Lemma normalization_is_in_displayPlaceInfo_witness :
  Main.placeName (Main.displayPlaceInfo Examples.nameless) = JsString (js "N/A")
  ∧ Main.placeAddress (Main.displayPlaceInfo Examples.nameless)
    = JsString (js "N/A").
Proof.
  pose proof (normalization_is_in_displayPlaceInfo
                Examples.anonymous (js "Joe's Pizza") [] Examples.nameless
                eq_refl) as (_ & _ & Hn & Ha & _).
  split; [exact Hn | exact Ha].
Defined.

(** C10. For an input without identifier whose [/place/] segment holds a
    malformed escape, [searchPlace] rejects with the URIError of
    [decodeURIComponent], which is none of the enumerated kinds, before any
    request is made to the library. *)
Theorem malformed_escape_rejects_with_URIError :
  ∃ input,
    input = js "https://www.google.com/maps/place/%ZZ"
    ∧ extractPlaceIdFromUrl input = None
    ∧ leftmost place_match input (js "%ZZ")
    ∧ decodeURIComponent (replace_plus (js "%ZZ")) = None
    ∧ typed_kind URIError = false
    ∧ ∀ google log, searchPlace google input log = (Throw URIError, log).
Proof.
  eexists. split; [reflexivity|]. split; [reflexivity|]. split.
  - apply (search_is_leftmost place_at _ _ _ place_at_Some). reflexivity.
  - split; [reflexivity | split; [reflexivity|]]. intros google log.
    rewrite searchPlace_by_text by reflexivity. reflexivity.
Qed.

(** C3, as stated, fails. An input with both parameters contains [&ftid=B],
    yet the lookup is made with the value of [place_id]; and a parameter
    with an empty value is no identifier: the input goes to the text
    search. *)
Lemma lookup_prefers_place_id :
  (let input := js "https://maps.google.com/?place_id=A&ftid=B" in
   (∃ pre, input = pre ++ js "&ftid=B")
   ∧ param_match (js "ftid") (js "B") (js "&ftid=B")
   ∧ searchPlace (Examples.chain 1) input []
     = (fetchFields (Examples.chain 1) (js "A"),
        [ImportLibrary (js "places");
         FetchFields (js "A") (js "en") requested_fields])
   ∧ FetchFields (js "B") (js "en") requested_fields
     ∉ snd (searchPlace (Examples.chain 1) input []))
  ∧ (let input := js "https://maps.google.com/?place_id=&q=Joe" in
     (∃ pre, input = pre ++ js "?place_id=" ++ js "&q=Joe")
     ∧ snd (searchPlace (Examples.chain 1) input [])
       = [ImportLibrary (js "places"); SearchByText input requested_fields 5]).
Proof.
  split; cbv zeta.
  - split; [exists (js "https://maps.google.com/?place_id=A"); reflexivity|].
    split; [apply param_at_Some; reflexivity|].
    split; [reflexivity|].
    intros H. vm_compute in H.
    repeat (apply elem_of_cons in H as [H|H]; [discriminate|]). inversion H.
  - split; [exists (js "https://maps.google.com/"); reflexivity | reflexivity].
Qed.

(** C3, amended. When the input contains an identifier parameter
    ([place_id] or [ftid] after [?] or [&], with a non-empty value running
    until the next [&] or the end), [searchPlace] is the lookup of one
    identifier [X]: the value of the leftmost [place_id] parameter when
    there is one, otherwise that of the leftmost [ftid] parameter. The only
    requests it adds are the import of the library and the fetch for [X]
    (no text search), and it fails only with what one of these two calls
    was rejected with. *)
Theorem identifier_lookup
        (google : Provider) (input : jsstring) (log : list Request) :
  occurs (param_match (js "place_id")) input
  ∨ occurs (param_match (js "ftid")) input →
  ∃ X,
    (leftmost (param_match (js "place_id")) input X
     ∨ (¬ occurs (param_match (js "place_id")) input
        ∧ leftmost (param_match (js "ftid")) input X))
    ∧ (∀ rq, rq ∈ snd (searchPlace google input log) →
         rq ∈ log ∨ rq = ImportLibrary (js "places")
         ∨ rq = FetchFields X (js "en") requested_fields)
    ∧ (importLibrary google (js "places") = Return tt →
       searchPlace google input log
       = (fetchFields google X,
          log ++ [ImportLibrary (js "places");
                  FetchFields X (js "en") requested_fields]))
    ∧ (∀ e, fst (searchPlace google input log) = Throw e →
         importLibrary google (js "places") = Throw e
         ∨ fetchFields google X = Throw e).
Proof.
  intros Hocc.
  destruct (extractPlaceIdFromUrl input) as [X|] eqn:E.
  - exists X. split; [apply extractPlaceIdFromUrl_Some; exact E|].
    rewrite (searchPlace_by_id google input X log E).
    split; [apply getPlaceById_requests|].
    split; [apply getPlaceById_answered | apply getPlaceById_throws].
  - apply extractPlaceIdFromUrl_None in E as [Hp Hf]. tauto.
Qed.

Lemma identifier_lookup_witness :
  ∃ X,
    (leftmost (param_match (js "place_id"))
              (js "https://maps.google.com/?cid=7&ftid=0x89c2:0x1") X
     ∨ (¬ occurs (param_match (js "place_id"))
                 (js "https://maps.google.com/?cid=7&ftid=0x89c2:0x1")
        ∧ leftmost (param_match (js "ftid"))
                   (js "https://maps.google.com/?cid=7&ftid=0x89c2:0x1") X))
    ∧ searchPlace (Examples.chain 1)
                  (js "https://maps.google.com/?cid=7&ftid=0x89c2:0x1") []
      = (fetchFields (Examples.chain 1) X,
         [ImportLibrary (js "places"); FetchFields X (js "en") requested_fields]).
Proof.
  destruct (identifier_lookup
              (Examples.chain 1)
              (js "https://maps.google.com/?cid=7&ftid=0x89c2:0x1") [])
    as (X & HX & _ & Hrun & _).
  - right. exists (js "https://maps.google.com/?cid=7"), (js "&ftid=0x89c2:0x1"),
      (js "0x89c2:0x1").
    split; [reflexivity | apply param_at_Some; reflexivity].
  - exists X. split; [exact HX | exact (Hrun eq_refl)].
Defined.

(** C7, as stated, fails. A [/place/] marker with nothing after it leaves
    the whole input as the search string, and a segment whose escapes do
    not decode gives no search string at all. *)
Lemma place_segment_not_always_used :
  (let input := js "pizza/place/" in
   extractPlaceIdFromUrl input = None
   ∧ (∃ pre, input = pre ++ js "/place/")
   ∧ snd (searchPlace (Examples.chain 1) input [])
     = [ImportLibrary (js "places"); SearchByText input requested_fields 5])
  ∧ (let input := js "https://www.google.com/maps/place/Caf%E9/@48.8,2.3" in
     extractPlaceIdFromUrl input = None
     ∧ (∃ pre post, input = pre ++ js "/place/" ++ js "Caf%E9" ++ js "/" ++ post)
     ∧ searchPlace (Examples.chain 1) input [] = (Throw URIError, [])).
Proof.
  split; cbv zeta.
  - split; [reflexivity|]. split; [exists (js "pizza"); reflexivity | reflexivity].
  - split; [reflexivity|]. split; [|reflexivity].
    exists (js "https://www.google.com/maps"), (js "@48.8,2.3"). reflexivity.
Qed.

(** C7, amended. For an input without identifier: when a [/place/] marker
    is followed by at least one code unit other than [/], the segment after
    the leftmost such marker, up to the next [/] or the end, has each [+]
    replaced by a space and is then percent-decoded; if it decodes, the
    result is the search string, and if it does not, [searchPlace] rejects
    with URIError without searching. When no marker is followed by such a
    segment, the input itself (the trimmed field, as [handleSearch] passes
    it) is the search string. The search string is the [textQuery] of the
    text search. *)
Theorem search_string_derivation
        (google : Provider) (input : jsstring) (log : list Request) :
  extractPlaceIdFromUrl input = None →
  (∀ segment, leftmost place_match input segment →
     match decodeURIComponent (replace_plus segment) with
     | Some name => searchPlace google input log = searchPlaceByText google name log
     | None => searchPlace google input log = (Throw URIError, log)
     end)
  ∧ (¬ occurs place_match input →
     searchPlace google input log = searchPlaceByText google input log
     ∧ ∀ value, Main.search_input value = Some input →
         searchPlace google input log = searchPlaceByText google (trim value) log)
  ∧ (∀ q places,
       importLibrary google (js "places") = Return tt →
       searchByText google q = Return places →
       snd (searchPlaceByText google q log)
       = log ++ [ImportLibrary (js "places"); SearchByText q requested_fields 5]).
Proof.
  intros Hid. rewrite (searchPlace_by_text google input log Hid).
  split; [|split].
  - intros segment Hl.
    apply (search_is_leftmost place_at _ _ _ place_at_Some) in Hl.
    rewrite Hl. destruct (decodeURIComponent (replace_plus segment)); reflexivity.
  - intros Hno. apply (search_is_absent place_at _ _ place_at_Some) in Hno.
    rewrite Hno. split; [reflexivity|].
    intros value Hv. unfold Main.search_input in Hv.
    destruct (trim value); [discriminate|]. injection Hv as <-. reflexivity.
  - intros q places. apply searchPlaceByText_requests.
Qed.

Lemma search_string_derivation_witness :
  snd (searchPlace (Examples.chain 1)
         (js "https://www.google.com/maps/place/Joe's+Pizza/@40.7,-74.0,17z") [])
  = [ImportLibrary (js "places");
     SearchByText (js "Joe's Pizza") requested_fields 5]
  ∧ snd (searchPlace (Examples.chain 1) (js "Joe's Pizza Brooklyn") [])
    = [ImportLibrary (js "places");
       SearchByText (trim (js "  Joe's Pizza Brooklyn ")) requested_fields 5].
Proof.
  split.
  - destruct (search_string_derivation
                (Examples.chain 1)
                (js "https://www.google.com/maps/place/Joe's+Pizza/@40.7,-74.0,17z")
                [] eq_refl) as (Hseg & _ & Hrq).
    specialize (Hseg (js "Joe's+Pizza")).
    change (decodeURIComponent (replace_plus (js "Joe's+Pizza")))
      with (Some (js "Joe's Pizza")) in Hseg.
    rewrite Hseg.
    + exact (Hrq (js "Joe's Pizza") _ eq_refl eq_refl).
    + apply (search_is_leftmost place_at _ _ _ place_at_Some). reflexivity.
  - destruct (search_string_derivation
                (Examples.chain 1) (js "Joe's Pizza Brooklyn") [] eq_refl)
      as (_ & Hraw & Hrq).
    destruct Hraw as [_ Htrim].
    + apply (search_is_absent place_at _ _ place_at_Some). reflexivity.
    + rewrite (Htrim (js "  Joe's Pizza Brooklyn ") eq_refl).
      exact (Hrq _ _ eq_refl eq_refl).
Defined.

(** ** The script loader *)

Section Loader.

Lemma settle_length p st ps : length (settle p st ps) = length ps.
Proof.
  unfold settle. destruct (ps !! p) as [[]|]; try reflexivity.
  apply length_insert.
Qed.

Lemma settle_pending p st ps :
  ps !! p = Some Pending → settle p st ps !! p = Some st.
Proof.
  intros H. unfold settle. rewrite H. apply list_lookup_insert_eq.
  eapply lookup_lt_Some; exact H.
Qed.

Lemma clearTimeout_lookup (id : option nat) (ts : list Timer) t tm :
  clearTimeout id ts !! t = Some tm →
  ∃ tm0, ts !! t = Some tm0 ∧ delay tm = delay tm0
         ∧ (active tm = true → active tm0 = true ∧ id ≠ Some t).
Proof.
  unfold clearTimeout, deactivate. destruct id as [t0|].
  - rewrite list_lookup_alter. case_decide as Heq.
    + subst t0. destruct (ts !! t) as [tm0|]; simpl; [|discriminate].
      intros [= <-]. exists tm0. simpl.
      split; [reflexivity | split; [reflexivity | discriminate]].
    + intros H. exists tm.
      split; [exact H | split; [reflexivity|]].
      intros Ha. split; [exact Ha | congruence].
  - intros H. exists tm.
    split; [exact H | split; [reflexivity|]].
    intros Ha. split; [exact Ha | discriminate].
Qed.

(** Clearing the current timer leaves none that can fire. *)
Lemma clear_current_no_active (w : World) :
  timers_inv w → no_active (clearTimeout (scriptLoadTimeout w) (timers w)).
Proof.
  intros Hinv t tm H.
  apply clearTimeout_lookup in H as (tm0 & H0 & Hd & Ha).
  destruct (Hinv t tm0 H0) as [Hdel Hact]. split; [congruence|].
  destruct (active tm); [|reflexivity].
  destruct (Ha eq_refl) as [Ha0 Hne]. destruct (Hact Ha0) as (Hs & _).
  contradiction.
Qed.

Lemma no_active_inv (w : World) : no_active (timers w) → timers_inv w.
Proof.
  intros H t tm Ht. destruct (H t tm Ht) as [Hd Ha].
  split; [exact Hd | intros; congruence].
Qed.

Lemma idle_no_active (w : World) :
  timers_inv w → mapsLoadingPromise w = None → no_active (timers w).
Proof.
  intros Hinv Hm t tm Ht. destruct (Hinv t tm Ht) as [Hd Ha].
  split; [exact Hd|]. destruct (active tm); [|reflexivity].
  destruct (Ha eq_refl) as (_ & Hs & _). congruence.
Qed.

Lemma timers_inv_constructed : timers_inv constructed.
Proof. intros t tm H. inversion H. Qed.

Lemma loadGoogleMaps_inv apiKey (w : World) :
  timers_inv w → timers_inv (snd (loadGoogleMaps apiKey w)).
Proof.
  intros Hinv. unfold loadGoogleMaps.
  destruct (places_available w).
  - intros t tm H. simpl in *. destruct (Hinv t tm H) as [Hd Ha].
    split; [exact Hd|]. intros Hact. destruct (Ha Hact) as (H1 & H2 & H3).
    split; [exact H1 | split; [exact H2|]]. apply lookup_app_l_Some. exact H3.
  - destruct (mapsLoadingPromise w) eqn:Hm; [exact Hinv|].
    intros t tm H. simpl in *.
    apply lookup_snoc_Some in H as [[_ H]|[-> <-]].
    + destruct (idle_no_active w Hinv Hm t tm H) as [Hd Ha].
      split; [exact Hd | intros; congruence].
    + simpl. split; [reflexivity|]. intros _.
      split; [reflexivity | split; [reflexivity|]].
      apply list_lookup_middle. reflexivity.
Qed.

Lemma timer_fires_inv t (w : World) : timers_inv w → timers_inv (timer_fires t w).
Proof.
  intros Hinv. unfold timer_fires.
  destruct (timers w !! t) as [tm|] eqn:Ht; [|exact Hinv].
  destruct (active tm) eqn:Ha; [|exact Hinv].
  apply no_active_inv. cbn [timers].
  change (deactivate t (timers w)) with (clearTimeout (Some t) (timers w)).
  destruct (Hinv t tm Ht) as [_ Hact]. destruct (Hact Ha) as (Hs & _).
  rewrite <- Hs. apply clear_current_no_active. exact Hinv.
Qed.

Lemma initMap_called_inv (w : World) : timers_inv w → timers_inv (initMap_called w).
Proof.
  intros Hinv. unfold initMap_called. destruct (initMap w); [|exact Hinv].
  apply no_active_inv. cbn [timers]. apply clear_current_no_active. exact Hinv.
Qed.

Lemma script_error_inv i (w : World) : timers_inv w → timers_inv (script_error i w).
Proof.
  intros Hinv. unfold script_error. destruct (head w !! i); [|exact Hinv].
  apply no_active_inv. cbn [timers]. apply clear_current_no_active. exact Hinv.
Qed.

(** The invariant holds in every state the page can reach. *)
Lemma run_inv (evs : list Event) (w : World) :
  timers_inv w → timers_inv (snd (run evs w)).
Proof.
  revert w. induction evs as [|ev evs IH]; intros w Hw; [exact Hw|].
  destruct ev; simpl.
  - pose proof (loadGoogleMaps_inv apiKey w Hw) as H1.
    destruct (loadGoogleMaps apiKey w) as [p w1]. simpl in H1.
    specialize (IH w1 H1). destruct (run evs w1). exact IH.
  - apply IH, timer_fires_inv, Hw.
  - apply IH, initMap_called_inv, Hw.
  - apply IH, script_error_inv, Hw.
  - apply IH. exact Hw.
Qed.

(** What does hold of the single flight: while the stored promise is set
    and the library is absent, a caller gets the stored promise, and
    nothing else happens. *)
Lemma loadGoogleMaps_shares_stored apiKey (w : World) p :
  places_available w = false → mapsLoadingPromise w = Some p →
  loadGoogleMaps apiKey w = (p, w).
Proof. intros Hp Hm. unfold loadGoogleMaps. rewrite Hp, Hm. reflexivity. Qed.

(** Calls made while the library is present only create fulfilled
    promises. *)
Lemma run_calls_loaded (keys : list jsstring) (w : World) :
  places_available w = true →
  run (map Call keys) w
  = (seq (length (promises w)) (length keys),
     {| places_available := places_available w;
        initMap := initMap w;
        mapsLoadingPromise := mapsLoadingPromise w;
        scriptLoadTimeout := scriptLoadTimeout w;
        promises := promises w ++ replicate (length keys) Fulfilled;
        timers := timers w;
        head := head w |}).
Proof.
  revert w. induction keys as [|k keys IH]; intros w Hp.
  - simpl. rewrite app_nil_r. destruct w; reflexivity.
  - cbn [map run]. unfold loadGoogleMaps at 1. rewrite Hp at 1.
    rewrite IH by exact Hp. cbn [places_available initMap mapsLoadingPromise
      scriptLoadTimeout promises timers head].
    rewrite length_app, <- app_assoc. cbn [length app replicate seq].
    rewrite Nat.add_1_r. reflexivity.
Qed.

End Loader.

(** ** Properties of the specification: the script loader *)

(** C6. When the library is present on [window], as it is after a load that
    succeeded, any number of calls return promises that are already
    fulfilled, append no script and set no timer: nothing changes but the
    new promises. *)
Theorem loadGoogleMaps_idempotent_when_loaded (keys : list jsstring) (w : World) :
  places_available w = true →
  let returned := fst (run (map Call keys) w) in
  let w' := snd (run (map Call keys) w) in
  length returned = length keys
  ∧ (∀ p, p ∈ returned → promises w' !! p = Some Fulfilled)
  ∧ head w' = head w
  ∧ timers w' = timers w
  ∧ initMap w' = initMap w
  ∧ mapsLoadingPromise w' = mapsLoadingPromise w
  ∧ places_available w' = true
  ∧ (∀ p, p < length (promises w) → promises w' !! p = promises w !! p)
  ∧ (∀ p, initMap w = Some p → promises w !! p = Some Pending →
       promises (initMap_called w) !! p = Some Fulfilled
       ∧ places_available (initMap_called w) = true
       ∧ head (initMap_called w) = head w).
Proof.
  intros Hp returned w'. subst returned w'.
  rewrite (run_calls_loaded keys w Hp). cbn [fst snd promises head timers
    initMap mapsLoadingPromise places_available].
  split; [apply length_seq|].
  split.
  { intros p Hin. apply elem_of_seq in Hin as [Hlo Hhi].
    rewrite lookup_app_r by exact Hlo.
    apply lookup_replicate_2. lia. }
  do 4 (split; [reflexivity|]). split; [exact Hp|].
  split; [intros p Hlt; apply lookup_app_l; exact Hlt|].
  intros p Hi Hpend. unfold initMap_called. rewrite Hi, Hp. simpl.
  split; [apply settle_pending; exact Hpend | split; reflexivity].
Qed.

Lemma loadGoogleMaps_idempotent_when_loaded_witness :
  let w := snd (run [Call Examples.key; PlacesAvailable true; ScriptCallback]
                    constructed) in
  let w' := snd (run (map Call [Examples.key; Examples.key]) w) in
  promises w = [Fulfilled]
  ∧ fst (run (map Call [Examples.key; Examples.key]) w) = [1; 2]
  ∧ (∀ p, p ∈ [1; 2] → promises w' !! p = Some Fulfilled)
  ∧ head w' = head w.
Proof.
  intros w w'.
  destruct (loadGoogleMaps_idempotent_when_loaded
              [Examples.key; Examples.key] w eq_refl)
    as (_ & Hall & Hhead & _).
  split; [reflexivity | split; [reflexivity | split; [exact Hall | exact Hhead]]].
Defined.

Section StaleError.

Lemma settle_other (q p : nat) (st : PromiseState) (ps : list PromiseState) :
  q ≠ p → settle q st ps !! p = ps !! p.
Proof.
  intros Hne. unfold settle.
  destruct (ps !! q) as [[| |]|]; try reflexivity.
  apply list_lookup_insert_ne. exact Hne.
Qed.

Lemma settle_never (q p : nat) (st st' : PromiseState) (ps : list PromiseState) :
  st ≠ st' → ps !! p ≠ Some st' → settle q st ps !! p ≠ Some st'.
Proof.
  intros Hst Hp. destruct (decide (q = p)) as [->|Hne].
  - unfold settle. destruct (ps !! p) as [[| |]|] eqn:E; try (rewrite E; exact Hp).
    rewrite list_lookup_insert_eq by (eapply lookup_lt_Some; exact E).
    congruence.
  - rewrite settle_other by exact Hne. exact Hp.
Qed.

Lemma clearTimeout_active (id : option nat) (ts : list Timer) t tm :
  clearTimeout id ts !! t = Some tm → active tm = true → ts !! t = Some tm.
Proof.
  unfold clearTimeout, deactivate. destruct id as [t0|]; [|tauto].
  rewrite list_lookup_alter. case_decide as Heq; [|tauto].
  subst t0. destruct (ts !! t) as [tm0|]; simpl; [|discriminate].
  intros [= <-]. simpl. discriminate.
Qed.

Lemma disarmed_loadGoogleMaps (p : nat) (apiKey : jsstring) (w : World) :
  disarmed p w → disarmed p (snd (loadGoogleMaps apiKey w)).
Proof.
  intros [Hlt Ht]. unfold loadGoogleMaps.
  destruct (places_available w).
  - split; cbn [snd promises timers]; [rewrite length_app; lia | exact Ht].
  - destruct (mapsLoadingPromise w); [split; assumption|].
    split; cbn [snd promises timers]; [rewrite length_app; lia|].
    intros t tm H Ha. apply lookup_app_Some in H as [H | [_ H]].
    + exact (Ht t tm H Ha).
    + apply list_lookup_singleton_Some in H as [_ <-]. cbn [timer_rejects]. lia.
Qed.

Lemma loadGoogleMaps_keeps (p : nat) (apiKey : jsstring) (w : World) :
  p < length (promises w) →
  promises (snd (loadGoogleMaps apiKey w)) !! p = promises w !! p.
Proof.
  intros Hlt. unfold loadGoogleMaps.
  destruct (places_available w); [apply lookup_app_l; exact Hlt|].
  destruct (mapsLoadingPromise w); [reflexivity|].
  apply lookup_app_l. exact Hlt.
Qed.

Lemma loadGoogleMaps_scripts (p : nat) (apiKey : jsstring) (w : World) i sc :
  p < length (promises w) →
  head (snd (loadGoogleMaps apiKey w)) !! i = Some sc → onerror_rejects sc = p →
  head w !! i = Some sc.
Proof.
  intros Hlt. unfold loadGoogleMaps.
  destruct (places_available w); [tauto|].
  destruct (mapsLoadingPromise w); [tauto|]. cbn [snd head].
  intros H Hp. apply lookup_app_Some in H as [H | [_ H]]; [exact H|].
  apply list_lookup_singleton_Some in H as [_ <-]. cbn [onerror_rejects] in Hp. lia.
Qed.

Lemma disarmed_timer_fires (p t : nat) (w : World) :
  disarmed p w →
  disarmed p (timer_fires t w)
  ∧ promises (timer_fires t w) !! p = promises w !! p.
Proof.
  intros [Hlt Ht]. unfold timer_fires.
  destruct (timers w !! t) as [tm|] eqn:E; [|split; [split; assumption | reflexivity]].
  destruct (active tm) eqn:Ha; [|split; [split; assumption | reflexivity]].
  cbn [promises]. split; [split|].
  - cbn [promises]. rewrite settle_length. exact Hlt.
  - cbn [timers]. intros t' tm' H Ha'.
    apply (Ht t' tm'); [|exact Ha'].
    exact (clearTimeout_active (Some t) (timers w) t' tm' H Ha').
  - apply settle_other. exact (Ht t tm E Ha).
Qed.

Lemma disarmed_initMap_called (p : nat) (w : World) :
  disarmed p w → disarmed p (initMap_called w).
Proof.
  intros [Hlt Ht]. unfold initMap_called.
  destruct (initMap w) as [q|]; [|split; assumption]. split.
  - cbn [promises]. rewrite settle_length. exact Hlt.
  - cbn [timers]. intros t tm H Ha.
    apply (Ht t tm); [|exact Ha]. exact (clearTimeout_active _ _ t tm H Ha).
Qed.

Lemma disarmed_script_error (p i : nat) (w : World) :
  disarmed p w → disarmed p (script_error i w).
Proof.
  intros [Hlt Ht]. unfold script_error.
  destruct (head w !! i) as [sc|]; [|split; assumption]. split.
  - cbn [promises]. rewrite settle_length. exact Hlt.
  - cbn [timers]. intros t tm H Ha.
    apply (Ht t tm); [|exact Ha]. exact (clearTimeout_active _ _ t tm H Ha).
Qed.

Lemma head_script_error (i : nat) (w : World) :
  head (script_error i w) = head w.
Proof. unfold script_error. destruct (head w !! i); reflexivity. Qed.

Lemma head_timer_fires (t : nat) (w : World) :
  head (timer_fires t w) = head w.
Proof.
  unfold timer_fires. destruct (timers w !! t) as [tm|]; [|reflexivity].
  destruct (active tm); reflexivity.
Qed.

(** A promise that has lost its timer is never rejected with Timeout. *)
Lemma disarmed_never_timeout (p : nat) (evs : list Event) (w : World) :
  disarmed p w → promises w !! p ≠ Some (Rejected Timeout) →
  promises (snd (run evs w)) !! p ≠ Some (Rejected Timeout).
Proof.
  revert w. induction evs as [|ev evs IH]; intros w Hd Hp; [exact Hp|].
  destruct ev; cbn [run].
  - pose proof (disarmed_loadGoogleMaps p apiKey w Hd) as H1.
    pose proof (loadGoogleMaps_keeps p apiKey w (proj1 Hd)) as H2.
    destruct (loadGoogleMaps apiKey w) as [q w1]. cbn [snd] in H1, H2.
    specialize (IH w1 H1). rewrite H2 in IH. specialize (IH Hp).
    destruct (run evs w1). exact IH.
  - destruct (disarmed_timer_fires p t w Hd) as [H1 H2].
    apply IH; [exact H1 | rewrite H2; exact Hp].
  - apply IH; [apply disarmed_initMap_called; exact Hd|].
    unfold initMap_called. destruct (initMap w) as [q|]; [|exact Hp].
    cbn [promises]. apply settle_never; [|exact Hp].
    destruct (places_available w); discriminate.
  - apply IH; [apply disarmed_script_error; exact Hd|].
    unfold script_error. destruct (head w !! i) as [sc|]; [|exact Hp].
    cbn [promises]. apply settle_never; [discriminate | exact Hp].
  - apply IH; [exact Hd | exact Hp].
Qed.

(** A stranded promise stays pending as long as no script calls [initMap]
    and its own script does not fail to load. *)
Lemma stranded_stays_pending (s p : nat) (evs : list Event) (w : World) :
  stranded s p w →
  Forall (fun ev => ev ≠ ScriptCallback ∧ ev ≠ ScriptError s) evs →
  promises (snd (run evs w)) !! p = Some Pending.
Proof.
  revert w. induction evs as [|ev evs IH]; intros w (Hp & Hd & Hs) Hq;
    [exact Hp|].
  apply Forall_cons in Hq as [[Hcb Herr] Hq].
  destruct ev; cbn [run].
  - pose proof (disarmed_loadGoogleMaps p apiKey w Hd) as H1.
    pose proof (loadGoogleMaps_keeps p apiKey w (proj1 Hd)) as H2.
    pose proof (fun i sc => loadGoogleMaps_scripts p apiKey w i sc (proj1 Hd)) as H3.
    destruct (loadGoogleMaps apiKey w) as [q w1]. cbn [snd] in H1, H2, H3.
    assert (stranded s p w1) as Hw1.
    { split; [rewrite H2; exact Hp | split; [exact H1|]].
      intros i sc Hi Hr. exact (Hs i sc (H3 i sc Hi Hr) Hr). }
    specialize (IH w1 Hw1 Hq). destruct (run evs w1). exact IH.
  - destruct (disarmed_timer_fires p t w Hd) as [H1 H2].
    apply IH; [|exact Hq].
    split; [rewrite H2; exact Hp | split; [exact H1|]].
    rewrite head_timer_fires. exact Hs.
  - contradiction.
  - apply IH; [|exact Hq].
    split; [|split; [apply disarmed_script_error; exact Hd|]].
    + unfold script_error. destruct (head w !! i) as [sc|] eqn:E; [|exact Hp].
      cbn [promises]. rewrite settle_other; [exact Hp|].
      intros Hr. apply Herr. f_equal. exact (Hs i sc E Hr).
    + rewrite head_script_error. exact Hs.
  - apply IH; [|exact Hq]. split; [exact Hp | split; [exact Hd | exact Hs]].
Qed.

End StaleError.

(** C5: the code breaks it. The second attempt below is one whose callback
    never fires. The error event of the first script, which comes after
    the first attempt has timed out, clears the timer of the second: its
    promise is pending and no timer is left that can fire. Whatever
    happens afterwards, the promise is never rejected with Timeout; and as
    long as no script calls [initMap] and the second script does not fail
    to load, it stays pending, also when the timers fire and later calls
    start new attempts. *)
Theorem stale_script_error_disarms_timeout :
  let trace := [Call Examples.key; TimerFires 0; Call Examples.key;
                ScriptError 0] in
  let w := snd (run trace constructed) in
  fst (run trace constructed) = [0; 1]
  ∧ promises w = [Rejected Timeout; Pending]
  ∧ map timer_rejects (timers w) = [0; 1]
  ∧ map active (timers w) = [false; false]
  ∧ mapsLoadingPromise w = None
  ∧ (∀ evs, promises (snd (run evs w)) !! 1 ≠ Some (Rejected Timeout))
  ∧ (∀ evs, Forall (fun ev => ev ≠ ScriptCallback ∧ ev ≠ ScriptError 1) evs →
            promises (snd (run evs w)) !! 1 = Some Pending).
Proof.
  cbv zeta.
  assert (stranded 1 1 (snd (run [Call Examples.key; TimerFires 0;
                                  Call Examples.key; ScriptError 0]
                                 constructed))) as Hs.
  { split; [reflexivity | split; [split; [vm_compute; lia|]|]].
    - intros t tm H. vm_compute in H.
      destruct t as [|[|t]]; simpl in H; [| |discriminate];
        injection H as <-; discriminate.
    - intros i sc H. vm_compute in H.
      destruct i as [|[|i]]; simpl in H; [| |discriminate];
        injection H as <-; [discriminate | reflexivity]. }
  split; [reflexivity|]. split; [reflexivity|]. split; [reflexivity|].
  split; [reflexivity|]. split; [reflexivity|]. split.
  - intros evs. apply disarmed_never_timeout; [exact (proj1 (proj2 Hs))|].
    discriminate.
  - intros evs. apply stranded_stays_pending. exact Hs.
Qed.

Lemma stale_script_error_disarms_timeout_witness :
  promises
    (snd (run [Call Examples.key; TimerFires 0; Call Examples.key;
               ScriptError 0; TimerFires 1; TimerFires 0; Call Examples.key;
               TimerFires 2; PlacesAvailable true; Call Examples.key]
              constructed)) !! 1
  = Some Pending.
Proof.
  refine (proj2 (proj2 (proj2 (proj2 (proj2 (proj2
            stale_script_error_disarms_timeout)))))
            [TimerFires 1; TimerFires 0; Call Examples.key; TimerFires 2;
             PlacesAvailable true; Call Examples.key] _).
  repeat (apply Forall_cons; split; [split; discriminate|]).
  apply Forall_nil. exact I.
Defined.

(** C2: the code breaks it. The error event of a script whose attempt has
    already timed out clears the timer and the stored promise of the
    attempt that followed; the next caller then starts a third attempt
    while the second is still pending. *)
Theorem stale_script_error_breaks_single_flight :
  let trace := [Call Examples.key; TimerFires 0; Call Examples.key;
                ScriptError 0; Call Examples.key] in
  let before := snd (run (take 4 trace) constructed) in
  let after := snd (run trace constructed) in
  fst (run trace constructed) = [0; 1; 2]
  ∧ promises before = [Rejected Timeout; Pending]
  ∧ mapsLoadingPromise before = None
  ∧ no_active (timers before)
  ∧ promises after = [Rejected Timeout; Pending; Pending]
  ∧ in_flight after = [1; 2]
  ∧ map onerror_rejects (head after) = [0; 1; 2].
Proof.
  cbv zeta. split; [reflexivity|]. split; [reflexivity|]. split; [reflexivity|].
  split; [|split; [reflexivity | split; reflexivity]].
  intros t tm H. vm_compute in H.
  destruct t as [|[|t]]; simpl in H; [| |discriminate];
    injection H as <-; split; reflexivity.
Qed.

(** C4: the code breaks it. After IncompleteLoad the stored promise is
    kept, so the next call gets the rejected promise back and no script is
    requested again; after Timeout and after LoadFailure the global
    [initMap] is still installed. *)
Theorem failure_paths_leave_state_behind :
  (let w := snd (run [Call Examples.key; ScriptCallback] constructed) in
   promises w = [Rejected IncompleteLoad]
   ∧ mapsLoadingPromise w = Some 0
   ∧ initMap w = None
   ∧ loadGoogleMaps Examples.key w = (0, w)
   ∧ length (head w) = 1)
  ∧ (let w := snd (run [Call Examples.key; TimerFires 0] constructed) in
     promises w = [Rejected Timeout]
     ∧ mapsLoadingPromise w = None
     ∧ initMap w = Some 0)
  ∧ (let w := snd (run [Call Examples.key; ScriptError 0] constructed) in
     promises w = [Rejected LoadFailure]
     ∧ mapsLoadingPromise w = None
     ∧ initMap w = Some 0).
Proof. cbv zeta. repeat split. Qed.

(** ** Further properties of place resolution *)

Section MoreResolution.

Variable google : Provider.

(** The requests of a text search: the import, and the search when the
    import was answered. *)
Lemma searchPlaceByText_log (q : jsstring) (log : list Request) :
  snd (searchPlaceByText google q log)
  = log ++ match importLibrary google (js "places") with
           | Return _ => [ImportLibrary (js "places");
                          SearchByText q requested_fields 5]
           | Throw _ => [ImportLibrary (js "places")]
           end.
Proof.
  unfold searchPlaceByText, bind, await.
  destruct (importLibrary google (js "places")) as [[]|e]; [|reflexivity].
  rewrite <- app_assoc. cbn [app].
  destruct (searchByText google q) as [[[|first rest]|]|e]; try reflexivity.
  cbv beta iota zeta.
  destruct (1 <? length (first :: rest)); [|reflexivity].
  destruct (negb _); [reflexivity|].
  destruct (2 <? length (first :: rest)); reflexivity.
Qed.

Lemma getPlaceById_log (X : jsstring) (log : list Request) :
  snd (getPlaceById google X log)
  = log ++ match importLibrary google (js "places") with
           | Return _ => [ImportLibrary (js "places");
                          FetchFields X (js "en") requested_fields]
           | Throw _ => [ImportLibrary (js "places")]
           end.
Proof.
  unfold getPlaceById, bind, await.
  destruct (importLibrary google (js "places")) as [[]|e]; [|reflexivity].
  rewrite <- app_assoc. reflexivity.
Qed.


End MoreResolution.

(** X1. Whatever the input and the library, [searchPlace] adds to the
    requests made before it one of four sequences: nothing, when the name
    segment does not decode (URIError); the import alone, when the import
    is rejected, and [searchPlace] rejects with the same error; the import
    and one fetch, for the extracted identifier, whose answer is the
    outcome; or the import and one text search for up to 5 results. It
    never both fetches and searches: a lookup that fails is not retried as
    a text search. *)
Theorem searchPlace_request_discipline
        (google : Provider) (input : jsstring) (log : list Request) :
  ∃ rs,
    snd (searchPlace google input log) = log ++ rs
    ∧ ((rs = [] ∧ fst (searchPlace google input log) = Throw URIError)
       ∨ (rs = [ImportLibrary (js "places")]
          ∧ ∃ e, importLibrary google (js "places") = Throw e
                 ∧ fst (searchPlace google input log) = Throw e)
       ∨ (∃ X, extractPlaceIdFromUrl input = Some X
               ∧ rs = [ImportLibrary (js "places");
                       FetchFields X (js "en") requested_fields]
               ∧ fst (searchPlace google input log) = fetchFields google X)
       ∨ (∃ q, extractPlaceIdFromUrl input = None
               ∧ rs = [ImportLibrary (js "places");
                       SearchByText q requested_fields 5])).
Proof.
  destruct (extractPlaceIdFromUrl input) as [X|] eqn:E.
  - rewrite (searchPlace_by_id google input X log E), getPlaceById_log.
    eexists. split; [reflexivity|].
    unfold getPlaceById, bind, await.
    destruct (importLibrary google (js "places")) as [[]|e].
    + right. right. left. exists X. auto.
    + right. left. split; [reflexivity|]. exists e. auto.
  - rewrite (searchPlace_by_text google input log E).
    assert (∀ q, ∃ rs, snd (searchPlaceByText google q log) = log ++ rs
      ∧ ((rs = [ImportLibrary (js "places")]
          ∧ ∃ e, importLibrary google (js "places") = Throw e
                 ∧ fst (searchPlaceByText google q log) = Throw e)
         ∨ rs = [ImportLibrary (js "places"); SearchByText q requested_fields 5]))
      as Htext.
    { intros q. rewrite searchPlaceByText_log. eexists. split; [reflexivity|].
      unfold searchPlaceByText, bind, await.
      destruct (importLibrary google (js "places")) as [[]|e].
      - right. reflexivity.
      - left. split; [reflexivity|]. exists e. auto. }
    destruct (search place_at input) as [segment|].
    + destruct (decodeURIComponent (replace_plus segment)) as [name|].
      * destruct (Htext name) as (rs & -> & [H| ->]); eexists.
        -- split; [reflexivity|]. right. left. exact H.
        -- split; [reflexivity|]. do 3 right. exists name. auto.
      * exists []. rewrite app_nil_r. split; [reflexivity|]. left. auto.
    + destruct (Htext input) as (rs & -> & [H| ->]); eexists.
      * split; [reflexivity|]. right. left. exact H.
      * split; [reflexivity|]. do 3 right. exists input. auto.
Qed.



(** X3. An input with neither [?] nor [&] never takes the identifier path,
    even when it is a bare place identifier; when it has no [/] either, the
    text search is made with the input as it is. *)
Theorem bare_input_is_searched
        (google : Provider) (input : jsstring) (log : list Request) :
  63%Z ∉ input → 38%Z ∉ input →
  extractPlaceIdFromUrl input = None
  ∧ (47%Z ∉ input →
     searchPlace google input log = searchPlaceByText google input log).
Proof.
  intros Hq Ha.
  assert (extractPlaceIdFromUrl input = None) as Hid.
  { apply extractPlaceIdFromUrl_None.
    split; intros (pre & suf & X & -> & sep & rest & -> & [->| ->] & _);
      first [ apply Hq; apply elem_of_app; right; left
            | apply Ha; apply elem_of_app; right; left ]. }
  split; [exact Hid|]. intros Hs.
  rewrite (searchPlace_by_text google input log Hid).
  assert (search place_at input = None) as ->; [|reflexivity].
  apply (search_is_absent place_at _ _ place_at_Some).
  intros (pre & suf & X & -> & rest & -> & _).
  apply Hs. apply elem_of_app. right. left.
Qed.

Lemma bare_input_is_searched_witness :
  searchPlace (Examples.chain 1) (js "ChIJN1t_tDeuEmsRUsoyG83frY4") []
  = searchPlaceByText (Examples.chain 1) (js "ChIJN1t_tDeuEmsRUsoyG83frY4") [].
Proof.
  assert (∀ c, c ∈ js "ChIJN1t_tDeuEmsRUsoyG83frY4" →
               c ≠ 63%Z ∧ c ≠ 38%Z ∧ c ≠ 47%Z) as Hc.
  { intros c Hin. vm_compute in Hin.
    repeat (apply elem_of_cons in Hin as [->|Hin];
            [split; [discriminate | split; discriminate]|]).
    inversion Hin. }
  apply (bare_input_is_searched
           (Examples.chain 1) (js "ChIJN1t_tDeuEmsRUsoyG83frY4") []);
    intros Hin; apply Hc in Hin; tauto.
Defined.

(** X4. An identifier that [extractPlaceIdFromUrl] returns is never empty,
    holds no [&], and stands in the input right after [?place_id=],
    [&place_id=], [?ftid=] or [&ftid=], up to the next [&] or the end. *)
Theorem extracted_identifier_shape (input X : jsstring) :
  extractPlaceIdFromUrl input = Some X →
  X ≠ [] ∧ (38%Z ∉ X)
  ∧ ∃ pre sep key post,
      input = pre ++ sep :: key ++ 61%Z :: X ++ post
      ∧ (sep = 63%Z ∨ sep = 38%Z)
      ∧ (key = js "place_id" ∨ key = js "ftid")
      ∧ (post = [] ∨ ∃ r, post = 38%Z :: r).
Proof.
  intros H.
  assert (∃ key, (key = js "place_id" ∨ key = js "ftid")
                 ∧ leftmost (param_match key) input X) as (key & Hkey & Hl).
  { apply extractPlaceIdFromUrl_Some in H as [H|[_ H]]; eauto. }
  destruct Hl as (pre & suf & -> & (sep & post & -> & Hsep & Hne & HF & Hpost) & _).
  split; [exact Hne|]. split.
  - intros Hin. rewrite Forall_forall in HF. exact (HF _ Hin eq_refl).
  - exists pre, sep, key, post. auto.
Qed.

Lemma extracted_identifier_shape_witness :
  ∃ pre sep key post,
    js "https://maps.google.com/?cid=7&ftid=0x89c2:0x1&hl=en"
    = pre ++ sep :: key ++ 61%Z :: js "0x89c2:0x1" ++ post
    ∧ (sep = 63%Z ∨ sep = 38%Z)
    ∧ (key = js "place_id" ∨ key = js "ftid")
    ∧ (post = [] ∨ ∃ r, post = 38%Z :: r).
Proof.
  exact (proj2 (proj2 (extracted_identifier_shape
                         (js "https://maps.google.com/?cid=7&ftid=0x89c2:0x1&hl=en")
                         (js "0x89c2:0x1") eq_refl))).
Defined.

Lemma unescape_plain (s : jsstring) :
  37%Z ∉ s → unescape s = Some (Lit <$> s).
Proof.
  induction s as [|c s IH]; intros H; [reflexivity|]. simpl.
  destruct (Z.eqb_spec c 37) as [->|_]; [exfalso; apply H; left|].
  rewrite IH; [reflexivity|]. intros Hin. apply H. right. exact Hin.
Qed.

Lemma utf8_literals (s : jsstring) : utf8 (Lit <$> s) = Some s.
Proof.
  induction s as [|c s IH]; [reflexivity|].
  change (utf8 (Lit <$> c :: s)) with (cons c <$> utf8 (Lit <$> s)).
  rewrite IH. reflexivity.
Qed.

(** A string without [%] decodes to itself. *)
Lemma decodeURIComponent_plain (s : jsstring) :
  37%Z ∉ s → decodeURIComponent s = Some s.
Proof.
  intros H. unfold decodeURIComponent. rewrite (unescape_plain s H).
  apply utf8_literals.
Qed.

Lemma elem_of_replace_plus (c : Z) (s : jsstring) :
  c ∈ replace_plus s → c ≠ 32%Z → c ∈ s ∧ c ≠ 43%Z.
Proof.
  unfold replace_plus. intros Hin Hc. apply list_elem_of_In in Hin.
  apply in_map_iff in Hin as (a & Ha & Hin). apply list_elem_of_In in Hin.
  destruct (Z.eqb_spec a 43); [congruence|]. subst a. auto.
Qed.

(** X5. When the segment after [/place/] holds no [%], the extraction never
    throws and the name is the segment with each [+] replaced by a space:
    the same length, and no [+] left. *)
Theorem plain_segment_is_the_name (input segment : jsstring) :
  leftmost place_match input segment → 37%Z ∉ segment →
  extractNameFromUrl input = Return (Some (replace_plus segment))
  ∧ length (replace_plus segment) = length segment
  ∧ (43%Z ∉ replace_plus segment).
Proof.
  intros Hl Hp.
  apply (search_is_leftmost place_at _ _ _ place_at_Some) in Hl.
  unfold extractNameFromUrl. rewrite Hl.
  rewrite decodeURIComponent_plain.
  - split; [reflexivity|]. split; [apply length_map|].
    intros Hin. apply elem_of_replace_plus in Hin as [_ Hne];
      [contradiction | discriminate].
  - intros Hin. apply elem_of_replace_plus in Hin as [Hin _];
      [contradiction | discriminate].
Qed.

Lemma plain_segment_is_the_name_witness :
  extractNameFromUrl (js "https://www.google.com/maps/place/Joe's+Pizza+NYC/@40.7")
  = Return (Some (js "Joe's Pizza NYC")).
Proof.
  refine (proj1 (plain_segment_is_the_name
                   (js "https://www.google.com/maps/place/Joe's+Pizza+NYC/@40.7")
                   (js "Joe's+Pizza+NYC") _ _)).
  - apply (search_is_leftmost place_at _ _ _ place_at_Some). reflexivity.
  - intros Hin. vm_compute in Hin.
    repeat (apply elem_of_cons in Hin as [Hin|Hin]; [discriminate Hin|]).
    inversion Hin.
Defined.

(** X6. The disambiguation reads the display names and nothing else: two
    answers with the same display names, in order, are both rejected with
    the same error, or each returns its own first result, whatever the
    identifiers and the addresses. *)
Theorem disambiguation_reads_names_only
        (g1 g2 : Provider) (q1 q2 : jsstring) (l1 l2 : list Place)
        (log1 log2 : list Request) :
  importLibrary g1 (js "places") = Return tt →
  importLibrary g2 (js "places") = Return tt →
  searchByText g1 q1 = Return (Some l1) →
  searchByText g2 q2 = Return (Some l2) →
  displayName <$> l1 = displayName <$> l2 →
  match fst (searchPlaceByText g1 q1 log1), fst (searchPlaceByText g2 q2 log2) with
  | Throw e1, Throw e2 => e1 = e2
  | Return p1, Return p2 => l1 !! 0 = Some p1 ∧ l2 !! 0 = Some p2
  | _, _ => False
  end.
Proof.
  intros Hi1 Hi2 Hs1 Hs2 Hnames.
  destruct l1 as [|f1 r1], l2 as [|f2 r2]; try discriminate.
  - rewrite (text_search_none g1 q1 log1), (text_search_none g2 q2 log2); auto.
  - injection Hnames as Hf Hr.
    change (displayName <$> r1 = displayName <$> r2) in Hr.
    destruct (decide (Forall (fun n => n = displayName f1) (displayName <$> r1)))
      as [Hall|Hdiff].
    + assert (∀ p, p ∈ r1 → displayName p = displayName f1) as H1.
      { intros p Hp. rewrite Forall_forall in Hall. apply Hall.
        apply list_elem_of_fmap. eauto. }
      assert (∀ p, p ∈ r2 → displayName p = displayName f2) as H2.
      { intros p Hp. rewrite Hr, Hf in Hall. rewrite Forall_forall in Hall.
        apply Hall. apply list_elem_of_fmap. eauto. }
      rewrite (text_search_same g1 q1 log1 f1 r1 Hi1 Hs1 H1).
      rewrite (text_search_same g2 q2 log2 f2 r2 Hi2 Hs2 H2).
      assert (length r1 = length r2) as ->.
      { rewrite <- (length_fmap displayName r1), Hr. apply length_fmap. }
      destruct (2 <=? length r2); [congruence | auto].
    + apply not_Forall_Exists in Hdiff; [|intros n; apply _].
      apply Exists_exists in Hdiff as (n & Hn & Hne).
      pose proof Hn as Hn2. rewrite Hr in Hn2.
      apply list_elem_of_fmap in Hn as (p1 & -> & Hp1).
      apply list_elem_of_fmap in Hn2 as (p2 & Hp2n & Hp2).
      rewrite (text_search_different g1 q1 log1 f1 r1 p1 Hi1 Hs1 Hp1 Hne).
      rewrite (text_search_different g2 q2 log2 f2 r2 p2 Hi2 Hs2 Hp2);
        [reflexivity|]. congruence.
Qed.

Lemma disambiguation_reads_names_only_witness :
  fst (searchPlaceByText (Samples.answering Samples.here) (js "Starbucks") [])
  = Return (Examples.branch 0)
  ∧ ∃ p2, fst (searchPlaceByText (Samples.answering Samples.elsewhere)
                                 (js "Starbucks Soho") []) = Return p2
          ∧ Samples.elsewhere !! 0 = Some p2.
Proof.
  pose proof (disambiguation_reads_names_only
                (Samples.answering Samples.here)
                (Samples.answering Samples.elsewhere)
                (js "Starbucks") (js "Starbucks Soho")
                Samples.here Samples.elsewhere [] []
                eq_refl eq_refl eq_refl eq_refl eq_refl) as H.
  change (fst (searchPlaceByText (Samples.answering Samples.here)
                                 (js "Starbucks") []))
    with (@Return Place (Examples.branch 0)) in H.
  split; [reflexivity|].
  destruct (fst (searchPlaceByText (Samples.answering Samples.elsewhere)
                                   (js "Starbucks Soho") [])) as [p2|e];
    [|contradiction].
  exists p2. split; [reflexivity | exact (proj2 H)].
Defined.

(** ** Further properties of the script loader *)

Section MoreLoader.

Lemma clearTimeout_length (id : option nat) (ts : list Timer) :
  length (clearTimeout id ts) = length ts.
Proof. destruct id; [apply length_alter | reflexivity]. Qed.

Lemma clearTimeout_keeps (id : option nat) (ts : list Timer) i tm0 :
  ts !! i = Some tm0 →
  ∃ tm, clearTimeout id ts !! i = Some tm ∧ timer_rejects tm = timer_rejects tm0.
Proof.
  intros H. destruct id as [t|]; [|eauto]. unfold clearTimeout, deactivate.
  rewrite list_lookup_alter. case_decide as Heq; [|eauto].
  subst t. rewrite H. simpl. eauto.
Qed.

Lemma scripts_inv_constructed : scripts_inv constructed.
Proof.
  split; [reflexivity|]. split.
  - intros i sc H. inversion H.
  - intros i j sci scj _ H. inversion H.
Qed.

Lemma hook_inv_constructed : hook_inv constructed.
Proof. intros t tm H. inversion H. Qed.

(** A step that keeps the scripts, only clears timers and does not shrink
    the promises keeps the bookkeeping. *)
Lemma scripts_inv_settled (w w' : World) (id : option nat) :
  head w' = head w → timers w' = clearTimeout id (timers w) →
  length (promises w') = length (promises w) →
  scripts_inv w → scripts_inv w'.
Proof.
  intros Hh Ht Hp (Hlen & Hsc & Hord). unfold scripts_inv.
  rewrite Hh, Ht, Hp, clearTimeout_length.
  split; [exact Hlen|]. split; [|exact Hord].
  intros i sc Hi. destruct (Hsc i sc Hi) as (Hb & (tm0 & Htm0 & Hr) & Hsrc).
  split; [exact Hb|]. split; [|exact Hsrc].
  destruct (clearTimeout_keeps id _ _ _ Htm0) as (tm & Htm & Hr').
  exists tm. split; [exact Htm | congruence].
Qed.

Lemma loadGoogleMaps_scripts_inv apiKey (w : World) :
  scripts_inv w → scripts_inv (snd (loadGoogleMaps apiKey w)).
Proof.
  intros (Hlen & Hsc & Hord). unfold loadGoogleMaps.
  destruct (places_available w).
  - split; [exact Hlen|]. split; [|exact Hord]. cbn [snd head timers promises].
    intros i sc Hi. destruct (Hsc i sc Hi) as (Hb & Htm & Hsrc).
    split; [rewrite length_app; lia | auto].
  - destruct (mapsLoadingPromise w); [split; [exact Hlen | split; assumption]|].
    cbn [snd]. unfold scripts_inv. cbn [head timers promises].
    rewrite !length_app. cbn [length]. split; [lia|]. split.
    + intros i sc Hi. apply lookup_snoc_Some in Hi as [[Hlt Hi]|[-> <-]].
      * destruct (Hsc i sc Hi) as (Hb & (tm & Htm & Hr) & Hsrc).
        split; [lia|]. split; [|exact Hsrc].
        exists tm. split; [apply lookup_app_l_Some; exact Htm | exact Hr].
      * cbn [onerror_rejects src]. split; [lia|]. split; [|eauto].
        eexists. split; [apply list_lookup_middle; exact Hlen|].
        reflexivity.
    + intros i j sci scj Hij Hi Hj.
      apply lookup_snoc_Some in Hj as [[Hjlt Hj]|[-> <-]].
      * rewrite lookup_app_l in Hi by lia. exact (Hord i j sci scj Hij Hi Hj).
      * rewrite lookup_app_l in Hi by lia. cbn [onerror_rejects].
        destruct (Hsc i sci Hi) as (Hb & _). exact Hb.
Qed.

Lemma loadGoogleMaps_hook_inv apiKey (w : World) :
  timers_inv w → hook_inv w → hook_inv (snd (loadGoogleMaps apiKey w)).
Proof.
  intros Ht Hh. unfold loadGoogleMaps.
  destruct (places_available w); [exact Hh|].
  destruct (mapsLoadingPromise w) eqn:Hm; [exact Hh|].
  intros t tm H Ha. cbn [snd timers initMap] in *.
  apply lookup_snoc_Some in H as [[_ H]|[-> <-]]; [|reflexivity].
  destruct (idle_no_active w Ht Hm t tm H) as [_ Hoff]. congruence.
Qed.

Lemma no_active_hook (w : World) : no_active (timers w) → hook_inv w.
Proof. intros H t tm Ht Ha. destruct (H t tm Ht) as [_ Hoff]. congruence. Qed.

(** The three invariants together, in every state the page reaches. *)
Lemma step_invariants (w : World) :
  timers_inv w ∧ scripts_inv w ∧ hook_inv w →
  (∀ apiKey, let w' := snd (loadGoogleMaps apiKey w) in
             timers_inv w' ∧ scripts_inv w' ∧ hook_inv w')
  ∧ (∀ t, let w' := timer_fires t w in
          timers_inv w' ∧ scripts_inv w' ∧ hook_inv w')
  ∧ (let w' := initMap_called w in timers_inv w' ∧ scripts_inv w' ∧ hook_inv w')
  ∧ (∀ i, let w' := script_error i w in
          timers_inv w' ∧ scripts_inv w' ∧ hook_inv w').
Proof.
  intros (Ht & Hs & Hh). split; [|split; [|split]].
  - intros apiKey. cbv zeta.
    split; [apply loadGoogleMaps_inv; exact Ht|].
    split; [apply loadGoogleMaps_scripts_inv; exact Hs
           | apply loadGoogleMaps_hook_inv; assumption].
  - intros t. cbv zeta. split; [apply timer_fires_inv; exact Ht|].
    unfold timer_fires.
    destruct (timers w !! t) as [tm|] eqn:Etm; [|auto].
    destruct (active tm) eqn:Ea; [|auto]. split.
    + apply (scripts_inv_settled w _ (Some t)); try reflexivity; [|exact Hs].
      cbn [promises]. apply settle_length.
    + apply no_active_hook. cbn [timers].
      change (deactivate t (timers w)) with (clearTimeout (Some t) (timers w)).
      destruct (Ht t tm Etm) as [_ Hact]. destruct (Hact Ea) as (Hcur & _).
      rewrite <- Hcur. apply clear_current_no_active. exact Ht.
  - cbv zeta. split; [apply initMap_called_inv; exact Ht|].
    unfold initMap_called. destruct (initMap w) as [p|]; [|auto]. split.
    + apply (scripts_inv_settled w _ (scriptLoadTimeout w));
        try reflexivity; [|exact Hs].
      cbn [promises]. apply settle_length.
    + apply no_active_hook. cbn [timers].
      apply clear_current_no_active. exact Ht.
  - intros i. cbv zeta. split; [apply script_error_inv; exact Ht|].
    unfold script_error. destruct (head w !! i) as [sc|]; [|auto]. split.
    + apply (scripts_inv_settled w _ (scriptLoadTimeout w));
        try reflexivity; [|exact Hs].
      cbn [promises]. apply settle_length.
    + apply no_active_hook. cbn [timers].
      apply clear_current_no_active. exact Ht.
Qed.

Lemma run_invariants (evs : list Event) (w : World) :
  timers_inv w ∧ scripts_inv w ∧ hook_inv w →
  let w' := snd (run evs w) in timers_inv w' ∧ scripts_inv w' ∧ hook_inv w'.
Proof.
  revert w. induction evs as [|ev evs IH]; intros w Hw; [exact Hw|].
  destruct (step_invariants w Hw) as (Hcall & Htimer & Hhook & Herr).
  destruct ev; cbn [run].
  - specialize (Hcall apiKey). destruct (loadGoogleMaps apiKey w) as [p w1].
    specialize (IH w1 Hcall). cbv zeta in IH. destruct (run evs w1). exact IH.
  - apply IH, Htimer.
  - apply IH, Hhook.
  - apply IH, Herr.
  - apply IH. exact Hw.
Qed.

Lemma reachable_invariants (evs : list Event) :
  let w := snd (run evs constructed) in
  timers_inv w ∧ scripts_inv w ∧ hook_inv w.
Proof.
  apply run_invariants. split; [apply timers_inv_constructed|].
  split; [apply scripts_inv_constructed | apply hook_inv_constructed].
Qed.

End MoreLoader.

Lemma settle_settled (q : nat) (st' : PromiseState) (ps : list PromiseState)
      (p : nat) (st : PromiseState) :
  ps !! p = Some st → st ≠ Pending → settle q st' ps !! p = Some st.
Proof.
  intros Hp Hst. unfold settle.
  destruct (ps !! q) as [[]|] eqn:Eq; try exact Hp.
  rewrite list_lookup_insert_ne; [exact Hp|]. congruence.
Qed.

(** X7. In every state the page reaches at most one timer can still fire:
    the one kept in [scriptLoadTimeout]. *)
Theorem one_live_timer (evs : list Event) (t1 t2 : nat) (tm1 tm2 : Timer) :
  let w := snd (run evs constructed) in
  timers w !! t1 = Some tm1 → active tm1 = true →
  timers w !! t2 = Some tm2 → active tm2 = true →
  t1 = t2 ∧ scriptLoadTimeout w = Some t1.
Proof.
  intros w H1 A1 H2 A2.
  destruct (reachable_invariants evs) as (Ht & _). fold w in Ht.
  destruct (Ht t1 tm1 H1) as [_ Hc1]. destruct (Hc1 A1) as (Hs1 & _).
  destruct (Ht t2 tm2 H2) as [_ Hc2]. destruct (Hc2 A2) as (Hs2 & _).
  split; [congruence | exact Hs1].
Qed.

Lemma one_live_timer_witness :
  scriptLoadTimeout
    (snd (run [Call Examples.key; TimerFires 0; Call Examples.key] constructed))
  = Some 1.
Proof.
  exact (proj2 (one_live_timer
                  [Call Examples.key; TimerFires 0; Call Examples.key] 1 1
                  {| delay := 10000; timer_rejects := 1; active := true |}
                  {| delay := 10000; timer_rejects := 1; active := true |}
                  eq_refl eq_refl eq_refl eq_refl)).
Defined.

Lemma scripts_bounded_by_calls (evs : list Event) (w : World) :
  length (head (snd (run evs w))) ≤ length (head w) + length (fst (run evs w)).
Proof.
  revert w. induction evs as [|ev evs IH]; intros w; [simpl; lia|].
  destruct ev; cbn [run].
  - specialize (IH (snd (loadGoogleMaps apiKey w))).
    assert (length (head (snd (loadGoogleMaps apiKey w))) ≤ S (length (head w)))
      as Hstep.
    { unfold loadGoogleMaps. destruct (places_available w); [simpl; lia|].
      destruct (mapsLoadingPromise w); simpl; [lia|].
      rewrite length_app. simpl. lia. }
    destruct (loadGoogleMaps apiKey w) as [p w1]. cbn [snd] in *.
    destruct (run evs w1) as [ps w2]. cbn [fst snd length] in *. lia.
  - etransitivity; [apply IH|]. unfold timer_fires.
    destruct (timers w !! t) as [tm|]; [destruct (active tm)|]; simpl; lia.
  - etransitivity; [apply IH|]. unfold initMap_called.
    destruct (initMap w); simpl; lia.
  - etransitivity; [apply IH|]. unfold script_error.
    destruct (head w !! i); simpl; lia.
  - exact (IH (set_places b w)).
Qed.

(** X8. In every state the page reaches there are as many script elements
    as timers, and no more than the calls made; the i-th script and the
    i-th timer reject the same promise, which exists; two different scripts
    reject different promises, the later script the later promise; and
    every script was requested from the Maps URL built from a key. *)
Theorem one_script_and_timer_per_attempt (evs : list Event) :
  let w := snd (run evs constructed) in
  length (head w) = length (timers w)
  ∧ length (head w) ≤ length (fst (run evs constructed))
  ∧ (∀ i sc, head w !! i = Some sc →
       onerror_rejects sc < length (promises w)
       ∧ (∃ tm, timers w !! i = Some tm
                ∧ timer_rejects tm = onerror_rejects sc)
       ∧ (∃ apiKey, src sc = script_url apiKey))
  ∧ (∀ i j sci scj, i < j → head w !! i = Some sci → head w !! j = Some scj →
       onerror_rejects sci < onerror_rejects scj).
Proof.
  intros w. destruct (reachable_invariants evs) as (_ & (Hlen & Hsc & Hord) & _).
  fold w in Hlen, Hsc, Hord.
  split; [exact Hlen|]. split; [|split; assumption].
  exact (scripts_bounded_by_calls evs constructed).
Qed.

Lemma one_script_and_timer_per_attempt_witness :
  let w := snd (run [Call Examples.key; Call Examples.key; TimerFires 0;
                     Call Examples.key] constructed) in
  length (head w) = length (timers w)
  ∧ length (head w) ≤ 3
  ∧ ∃ tm, timers w !! 1 = Some tm ∧ timer_rejects tm = 1.
Proof.
  intros w.
  destruct (one_script_and_timer_per_attempt
              [Call Examples.key; Call Examples.key; TimerFires 0;
               Call Examples.key]) as (Hlen & Hcalls & Hsc & _).
  split; [exact Hlen | split; [exact Hcalls|]].
  exact (proj1 (proj2 (Hsc 1 {| src := script_url Examples.key;
                                onerror_rejects := 1 |} eq_refl))).
Defined.

Lemma loadGoogleMaps_monotone apiKey (w : World) :
  head w `prefix_of` head (snd (loadGoogleMaps apiKey w))
  ∧ ∀ p st, promises w !! p = Some st →
            promises (snd (loadGoogleMaps apiKey w)) !! p = Some st.
Proof.
  unfold loadGoogleMaps. destruct (places_available w).
  - split; [reflexivity|]. intros p st H. apply lookup_app_l_Some. exact H.
  - destruct (mapsLoadingPromise w); [split; [reflexivity | auto]|].
    split; [apply prefix_app_r; reflexivity|].
    intros p st H. apply lookup_app_l_Some. exact H.
Qed.

(** X9. Nothing the page does removes a script element or changes a promise
    once it is fulfilled or rejected: after any events the scripts that
    were in the document head are still there, in front, and every settled
    promise is in the same state. *)
Theorem settled_stays_settled (evs : list Event) (w : World) :
  head w `prefix_of` head (snd (run evs w))
  ∧ ∀ p st, promises w !! p = Some st → st ≠ Pending →
            promises (snd (run evs w)) !! p = Some st.
Proof.
  revert w. induction evs as [|ev evs IH]; intros w; [split; [reflexivity | auto]|].
  assert (∀ w1, head w `prefix_of` head w1 →
                (∀ p st, promises w !! p = Some st → st ≠ Pending →
                         promises w1 !! p = Some st) →
                head w `prefix_of` head (snd (run evs w1))
                ∧ ∀ p st, promises w !! p = Some st → st ≠ Pending →
                          promises (snd (run evs w1)) !! p = Some st) as Hgo.
  { intros w1 Hh Hp. destruct (IH w1) as [Hh1 Hp1].
    split; [etransitivity; eassumption | auto]. }
  destruct ev; cbn [run].
  - destruct (loadGoogleMaps_monotone apiKey w) as [Hh Hp].
    destruct (loadGoogleMaps apiKey w) as [q w1]. cbn [snd] in *.
    specialize (Hgo w1 Hh (fun p st H _ => Hp p st H)).
    destruct (run evs w1). exact Hgo.
  - apply Hgo; unfold timer_fires;
      destruct (timers w !! t) as [tm|]; try destruct (active tm);
      try reflexivity; auto.
    intros p st H Hst. apply settle_settled; assumption.
  - apply Hgo; unfold initMap_called; destruct (initMap w);
      try reflexivity; auto.
    intros p st H Hst. apply settle_settled; assumption.
  - apply Hgo; unfold script_error; destruct (head w !! i);
      try reflexivity; auto.
    intros p st H Hst. apply settle_settled; assumption.
  - apply Hgo; [reflexivity | auto].
Qed.

Lemma settled_stays_settled_witness :
  promises (snd (run [ScriptCallback; PlacesAvailable true; ScriptError 0;
                      Call Examples.key]
                     (snd (run [Call Examples.key; TimerFires 0] constructed))))
    !! 0 = Some (Rejected Timeout).
Proof.
  apply (settled_stays_settled
           [ScriptCallback; PlacesAvailable true; ScriptError 0; Call Examples.key]
           (snd (run [Call Examples.key; TimerFires 0] constructed))).
  - reflexivity.
  - discriminate.
Defined.

(** X10. While a promise is stored and the library is absent, any number of
    calls return that promise, pending or rejected, and change nothing: no
    script, no timer, no new promise. *)
Theorem calls_share_the_stored_promise
        (keys : list jsstring) (w : World) (p : nat) :
  places_available w = false → mapsLoadingPromise w = Some p →
  run (map Call keys) w = (replicate (length keys) p, w).
Proof.
  intros Hp Hm. induction keys as [|k keys IH]; [reflexivity|].
  cbn [map run]. rewrite (loadGoogleMaps_shares_stored k w p Hp Hm), IH.
  reflexivity.
Qed.

Lemma calls_share_the_stored_promise_witness :
  let w := snd (run [Call Examples.key; ScriptCallback] constructed) in
  promises w !! 0 = Some (Rejected IncompleteLoad)
  ∧ run (map Call [Examples.key; Examples.key; Examples.key]) w = ([0; 0; 0], w).
Proof.
  intros w. split; [reflexivity|].
  exact (calls_share_the_stored_promise
           [Examples.key; Examples.key; Examples.key] w 0 eq_refl eq_refl).
Defined.

(** X11. In every state the page reaches, while the timer of an attempt can
    still fire, the global [initMap] is the callback of that attempt. When
    the script calls it, the stored promise, which the callers share, is
    fulfilled if the library is present and rejected with IncompleteLoad if
    it is not; the hook is removed, no timer can fire any more, no script
    is added, and the promise stays stored. *)
Theorem callback_settles_live_attempt (evs : list Event) (t : nat) (tm : Timer) :
  let w := snd (run evs constructed) in
  timers w !! t = Some tm → active tm = true →
  initMap w = Some (timer_rejects tm)
  ∧ mapsLoadingPromise w = Some (timer_rejects tm)
  ∧ let w' := initMap_called w in
    promises w' !! timer_rejects tm
    = Some (if places_available w then Fulfilled else Rejected IncompleteLoad)
    ∧ initMap w' = None
    ∧ no_active (timers w')
    ∧ mapsLoadingPromise w' = Some (timer_rejects tm)
    ∧ head w' = head w.
Proof.
  intros w Ht Ha.
  destruct (reachable_invariants evs) as (Hti & _ & Hh). fold w in Hti, Hh.
  pose proof (Hh t tm Ht Ha) as Hhook.
  destruct (Hti t tm Ht) as [_ Hact]. destruct (Hact Ha) as (_ & Hm & Hp).
  split; [exact Hhook | split; [exact Hm|]]. cbv zeta.
  unfold initMap_called. rewrite Hhook.
  cbn [promises initMap timers mapsLoadingPromise head].
  split; [apply settle_pending; exact Hp|]. split; [reflexivity|].
  split; [apply clear_current_no_active; exact Hti|].
  split; [exact Hm | reflexivity].
Qed.

Lemma callback_settles_live_attempt_witness :
  promises (initMap_called
              (snd (run [Call Examples.key; Call Examples.key;
                         PlacesAvailable true] constructed))) !! 0
  = Some Fulfilled.
Proof.
  destruct (callback_settles_live_attempt
              [Call Examples.key; Call Examples.key; PlacesAvailable true] 0
              {| delay := 10000; timer_rejects := 0; active := true |}
              eq_refl eq_refl) as (_ & _ & H & _).
  exact H.
Defined.

(** X12. In every state the page reaches, while the timer of an attempt can
    still fire, the error event of the script of that attempt rejects the
    stored promise with LoadFailure, clears the stored promise and the
    timer, and leaves the global [initMap] installed; the next call, the
    library being absent, starts a fresh attempt with one more script. *)
Theorem script_error_rejects_live_attempt
        (evs : list Event) (t : nat) (tm : Timer) :
  let w := snd (run evs constructed) in
  timers w !! t = Some tm → active tm = true →
  let w' := script_error t w in
  promises w' !! timer_rejects tm = Some (Rejected LoadFailure)
  ∧ mapsLoadingPromise w' = None
  ∧ no_active (timers w')
  ∧ initMap w' = Some (timer_rejects tm)
  ∧ ∀ apiKey, places_available w' = false →
      let p' := fst (loadGoogleMaps apiKey w') in
      let w'' := snd (loadGoogleMaps apiKey w') in
      p' ≠ timer_rejects tm
      ∧ promises w'' !! p' = Some Pending
      ∧ head w'' = head w' ++ [{| src := script_url apiKey;
                                  onerror_rejects := p' |}].
Proof.
  intros w Ht Ha.
  destruct (reachable_invariants evs) as (Hti & (Hlen & Hsc & _) & Hh).
  fold w in Hti, Hlen, Hsc, Hh.
  pose proof (Hh t tm Ht Ha) as Hhook.
  destruct (Hti t tm Ht) as [_ Hact]. destruct (Hact Ha) as (_ & Hm & Hp).
  assert (t < length (head w)) as Hlt.
  { rewrite Hlen. eapply lookup_lt_Some; exact Ht. }
  apply lookup_lt_is_Some_2 in Hlt as [sc Hscr].
  destruct (Hsc t sc Hscr) as (_ & (tm' & Htm' & Hr) & _).
  assert (tm' = tm) as -> by congruence.
  cbv zeta. unfold script_error. rewrite Hscr, <- Hr.
  cbn [promises initMap timers mapsLoadingPromise head places_available].
  split; [apply settle_pending; exact Hp|]. split; [reflexivity|].
  split; [apply clear_current_no_active; exact Hti|].
  split; [exact Hhook|].
  intros apiKey Hpl. unfold loadGoogleMaps.
  cbn [promises mapsLoadingPromise places_available]. rewrite Hpl.
  cbn [fst snd promises head]. rewrite settle_length.
  split; [apply lookup_lt_Some in Hp; lia|].
  split; [apply list_lookup_middle; rewrite settle_length; reflexivity|].
  reflexivity.
Qed.

Lemma script_error_rejects_live_attempt_witness :
  let w' := script_error 0 (snd (run [Call Examples.key] constructed)) in
  promises w' = [Rejected LoadFailure]
  ∧ fst (loadGoogleMaps Examples.key w') ≠ 0.
Proof.
  intros w'.
  destruct (script_error_rejects_live_attempt
              [Call Examples.key] 0
              {| delay := 10000; timer_rejects := 0; active := true |}
              eq_refl eq_refl) as (_ & _ & _ & _ & Hretry).
  split; [reflexivity|].
  exact (proj1 (Hretry Examples.key eq_refl)).
Defined.

(** ** The key field and the storage *)

Import Page.

(** X22. In every state the page reaches, a timer that can still fire was
    set for 10 seconds by the attempt whose promise is the stored one,
    shared by the callers and still pending. When it fires, that promise is
    rejected with Timeout and the stored promise is cleared; the next call,
    the library still being absent, starts a fresh attempt: a new pending
    promise, and one more script appended to the document head. *)
Theorem timeout_rejects_and_allows_retry
        (evs : list Event) (t : nat) (tm : Timer) :
  let w := snd (run evs constructed) in
  timers w !! t = Some tm → active tm = true →
  delay tm = 10000%Z
  ∧ mapsLoadingPromise w = Some (timer_rejects tm)
  ∧ promises w !! timer_rejects tm = Some Pending
  ∧ let w' := timer_fires t w in
    promises w' !! timer_rejects tm = Some (Rejected Timeout)
    ∧ mapsLoadingPromise w' = None
    ∧ ∀ apiKey, places_available w' = false →
        let p' := fst (loadGoogleMaps apiKey w') in
        let w'' := snd (loadGoogleMaps apiKey w') in
        p' ≠ timer_rejects tm
        ∧ promises w'' !! p' = Some Pending
        ∧ mapsLoadingPromise w'' = Some p'
        ∧ head w'' = head w' ++ [{| src := script_url apiKey;
                                    onerror_rejects := p' |}].
Proof.
  intros w Ht Hact.
  pose proof (run_inv evs constructed timers_inv_constructed) as Hinv.
  fold w in Hinv. destruct (Hinv t tm Ht) as [Hd Ha].
  destruct (Ha Hact) as (Hs & Hm & Hp).
  split; [exact Hd | split; [exact Hm | split; [exact Hp|]]].
  unfold timer_fires. rewrite Ht, Hact. cbv zeta.
  cbn [promises mapsLoadingPromise places_available].
  split; [apply settle_pending; exact Hp | split; [reflexivity|]].
  intros apiKey Hpl. unfold loadGoogleMaps.
  cbn [promises mapsLoadingPromise places_available]. rewrite Hpl.
  cbn [fst snd promises mapsLoadingPromise head]. rewrite settle_length.
  split; [apply lookup_lt_Some in Hp; lia|].
  split; [apply list_lookup_middle; rewrite settle_length; reflexivity|].
  split; reflexivity.
Qed.

Lemma timeout_rejects_and_allows_retry_witness :
  let w := snd (run [Call Examples.key; Call Examples.key; TimerFires 0]
                    constructed) in
  promises w = [Rejected Timeout]
  ∧ fst (loadGoogleMaps Examples.key w) = 1
  ∧ length (head (snd (loadGoogleMaps Examples.key w))) = 2.
Proof.
  intros w.
  destruct (timeout_rejects_and_allows_retry
              [Call Examples.key; Call Examples.key] 0
              {| delay := 10000; timer_rejects := 0; active := true |}
              eq_refl eq_refl) as (_ & _ & _ & _ & _ & Hretry).
  destruct (Hretry Examples.key eq_refl) as (_ & _ & _ & Hhead).
  split; [reflexivity | split; [reflexivity|]].
  exact (f_equal length Hhead).
Defined.

Section Trimming.

Lemma trim_start_suffix (s : jsstring) : ∃ p, s = p ++ trim_start s.
Proof.
  induction s as [|c s (p & IH)]; [exists []; reflexivity|]. simpl.
  destruct (is_white_space c).
  - exists (c :: p). simpl. f_equal. exact IH.
  - exists []. reflexivity.
Qed.

Lemma trim_start_head (s : jsstring) c t :
  trim_start s = c :: t → is_white_space c = false.
Proof.
  induction s as [|a s IH]; [discriminate|]. simpl.
  destruct (is_white_space a) eqn:E; [exact IH|]. intros [= <- _]. exact E.
Qed.

Lemma trim_start_fixed (s : jsstring) :
  match s with [] => True | c :: _ => is_white_space c = false end →
  trim_start s = s.
Proof. destruct s as [|c s]; [reflexivity|]. simpl. intros ->. reflexivity. Qed.

(** Trimming what is trimmed changes nothing. *)
Lemma trim_idempotent (s : jsstring) : trim (trim s) = trim s.
Proof.
  unfold trim. set (A := trim_start s). set (B := trim_start (rev A)).
  assert (trim_start (rev B) = rev B) as ->.
  { apply trim_start_fixed. destruct (rev B) as [|c r] eqn:Er; [exact I|].
    destruct (trim_start_suffix (rev A)) as (p & Hp). fold B in Hp.
    assert (A = (c :: r) ++ rev p) as HA.
    { rewrite <- (rev_involutive A), Hp, rev_app_distr, Er. reflexivity. }
    apply (trim_start_head s c (r ++ rev p)). exact HA. }
  rewrite rev_involutive. f_equal. apply trim_start_fixed.
  destruct B as [|c t] eqn:EB; [exact I|].
  apply (trim_start_head (rev A) c t). exact EB.
Qed.

End Trimming.

Section Masking.

Lemma includes_true (c : Z) (s : jsstring) : includes c s = true ↔ c ∈ s.
Proof.
  unfold includes. rewrite existsb_exists. split.
  - intros (x & Hx & Heq). apply Z.eqb_eq in Heq as <-.
    apply list_elem_of_In. exact Hx.
  - intros H. exists c. split; [apply list_elem_of_In; exact H | apply Z.eqb_refl].
Qed.

Lemma maskApiKey_short (apiKey : jsstring) :
  length apiKey ≤ 6 → maskApiKey apiKey = apiKey.
Proof.
  intros H. unfold maskApiKey.
  destruct (Nat.leb_spec (length apiKey) 6); [reflexivity | lia].
Qed.

Lemma maskApiKey_long (apiKey : jsstring) :
  6 < length apiKey →
  maskApiKey apiKey
  = replicate (length apiKey - 6) bullet ++ drop (length apiKey - 6) apiKey.
Proof.
  intros H. unfold maskApiKey, slice_last.
  destruct (Nat.leb_spec (length apiKey) 6); [lia | reflexivity].
Qed.

Lemma maskApiKey_length (apiKey : jsstring) :
  length (maskApiKey apiKey) = length apiKey.
Proof.
  destruct (Nat.le_gt_cases (length apiKey) 6) as [Hs|Hl].
  - rewrite (maskApiKey_short apiKey Hs). reflexivity.
  - rewrite (maskApiKey_long apiKey Hl).
    rewrite length_app, length_replicate, length_drop. lia.
Qed.

(** X13. The mask has the length of the key; it shows the last six code
    units of the key, in place, and a bullet at every position before
    them; a key of six code units or fewer is shown as it is. *)
Theorem maskApiKey_shape (apiKey : jsstring) :
  length (maskApiKey apiKey) = length apiKey
  ∧ (∀ i, length apiKey - 6 ≤ i → maskApiKey apiKey !! i = apiKey !! i)
  ∧ (∀ i, i < length apiKey - 6 → maskApiKey apiKey !! i = Some bullet)
  ∧ (length apiKey ≤ 6 → maskApiKey apiKey = apiKey).
Proof.
  destruct (Nat.le_gt_cases (length apiKey) 6) as [Hs|Hl].
  - rewrite (maskApiKey_short apiKey Hs).
    split; [reflexivity|]. split; [reflexivity|]. split; [intros; lia | auto].
  - rewrite (maskApiKey_long apiKey Hl).
    split; [|split; [|split]].
    + rewrite length_app, length_replicate, length_drop. lia.
    + intros i Hi. rewrite lookup_app_r; rewrite length_replicate; [|exact Hi].
      rewrite lookup_drop. f_equal. lia.
    + intros i Hi. rewrite lookup_app_l by (rewrite length_replicate; exact Hi).
      apply lookup_replicate_2. exact Hi.
    + intros. lia.
Qed.

Lemma maskApiKey_shape_witness :
  maskApiKey (js "AIzaSyD-1234567") !! 0 = Some bullet
  ∧ maskApiKey (js "AIzaSyD-1234567") !! 9 = Some 50%Z
  ∧ maskApiKey (js "secret") = js "secret".
Proof.
  destruct (maskApiKey_shape (js "AIzaSyD-1234567")) as (_ & Hlast & Hfirst & _).
  destruct (maskApiKey_shape (js "secret")) as (_ & _ & _ & Hshort).
  split; [apply Hfirst; vm_compute; lia|].
  split; [rewrite Hlast; [reflexivity | vm_compute; lia]|].
  apply Hshort. vm_compute. lia.
Defined.

(** X14. Masking a mask changes nothing. *)
Theorem maskApiKey_idempotent (apiKey : jsstring) :
  maskApiKey (maskApiKey apiKey) = maskApiKey apiKey.
Proof.
  destruct (Nat.le_gt_cases (length apiKey) 6) as [Hs|Hl].
  - rewrite (maskApiKey_short apiKey Hs). apply maskApiKey_short. exact Hs.
  - pose proof (maskApiKey_length apiKey) as Hlen.
    rewrite (maskApiKey_long (maskApiKey apiKey)) by lia.
    rewrite Hlen, (maskApiKey_long apiKey Hl). f_equal.
    rewrite drop_app_length'; [reflexivity | symmetry; apply length_replicate].
Qed.

Lemma maskApiKey_includes_bullet (apiKey : jsstring) :
  6 < length apiKey → includes bullet (maskApiKey apiKey) = true.
Proof.
  intros Hl. apply includes_true. rewrite (maskApiKey_long apiKey Hl).
  apply elem_of_app. left.
  destruct (length apiKey - 6) as [|n] eqn:E; [lia|]. left.
Qed.

End Masking.

Section KeyField.

Lemma restore_fields_storage (pg : Page) :
  localStorage (restore_fields pg) = localStorage pg.
Proof.
  unfold restore_fields.
  destruct (getStoredApiKey (localStorage pg)) as [[|c k]|]; cbn [localStorage];
    destruct (getStoredBusinessInput (localStorage pg)) as [[|d b]|]; reflexivity.
Qed.

Lemma restore_fields_key (pg : Page) :
  match getStoredApiKey (localStorage pg) with
  | Some ((_ :: _) as savedKey) =>
      fullApiKey (restore_fields pg) = savedKey
      ∧ apiKey_value (restore_fields pg) = maskApiKey savedKey
  | _ => fullApiKey (restore_fields pg) = fullApiKey pg
         ∧ apiKey_value (restore_fields pg) = apiKey_value pg
  end.
Proof.
  unfold restore_fields.
  destruct (getStoredApiKey (localStorage pg)) as [[|c k]|]; cbn [localStorage];
    destruct (getStoredBusinessInput (localStorage pg)) as [[|d b]|];
    split; reflexivity.
Qed.

Lemma blur_remembers (pg : Page) :
  trim (apiKey_value pg) ≠ [] → includes bullet (trim (apiKey_value pg)) = false →
  blur pg = remember (trim (apiKey_value pg)) pg.
Proof.
  intros Hne Hb. unfold blur. rewrite Hb.
  destruct (trim (apiKey_value pg)); [contradiction | reflexivity].
Qed.

(** X15. A key typed into the field, not empty once trimmed and without
    bullet, is remembered trimmed when the field loses the focus, and the
    field then shows its mask; when the field gets the focus back it shows
    the trimmed key again, whole. *)
Theorem blur_then_focus_shows_the_key (pg : Page) (value : jsstring) :
  trim value ≠ [] → includes bullet (trim value) = false →
  let pg1 := acts [EditKey value; Blur] pg in
  let pg2 := act Focus pg1 in
  fullApiKey pg1 = trim value
  ∧ apiKey_value pg1 = maskApiKey (trim value)
  ∧ fullApiKey pg2 = trim value
  ∧ apiKey_value pg2 = trim value.
Proof.
  intros Hne Hb pg1 pg2. subst pg2 pg1. unfold acts. cbn [foldl act].
  rewrite blur_remembers by assumption. cbn [apiKey_value].
  split; [reflexivity|]. split; [reflexivity|].
  unfold focus, remember. cbn [fullApiKey apiKey_value].
  destruct (trim value) as [|c key] eqn:E; [contradiction|].
  cbn [is_empty negb andb].
  destruct (includes bullet (maskApiKey (c :: key))) eqn:Em; [split; reflexivity|].
  cbn [fullApiKey apiKey_value]. split; [reflexivity|].
  destruct (Nat.le_gt_cases (length (c :: key)) 6) as [Hs|Hl].
  - apply maskApiKey_short. exact Hs.
  - rewrite maskApiKey_includes_bullet in Em by exact Hl. discriminate.
Qed.

Lemma blur_then_focus_shows_the_key_witness :
  apiKey_value (acts [EditKey (js "  AIzaSyD-1234567 "); Blur; Focus]
                     (opened fresh_storage))
  = js "AIzaSyD-1234567".
Proof.
  exact (proj2 (proj2 (proj2 (blur_then_focus_shows_the_key
           (opened fresh_storage) (js "  AIzaSyD-1234567 ")
           ltac:(discriminate) eq_refl)))).
Defined.

Lemma getStored_setStored (name value : jsstring) (st : LocalStorage) :
  readable st = true → writable st = true →
  getStored name (snd (setStored name value st)) = Some value.
Proof.
  intros Hr Hw. unfold getStored, setStored, getItem, setItem.
  rewrite Hw. cbn [snd readable items]. rewrite Hr. apply lookup_insert_eq.
Qed.

Lemma setStored_unwritable (name value : jsstring) (st : LocalStorage) :
  writable st = false → setStored name value st = (false, st).
Proof. intros Hw. unfold setStored, setItem. rewrite Hw. reflexivity. Qed.

Lemma page_init (display_throws : LocalStorage → bool) (st : LocalStorage) :
  page (init display_throws st) = opened st.
Proof.
  unfold init, loadSavedData, opened. cbn [page].
  destruct (getStoredSearchResultText _) as [[|c t]|]; reflexivity.
Qed.

Lemma step_listening (display_throws : LocalStorage → bool) (a : Action)
      (d : Document) :
  listening d = true →
  step display_throws a d
  = match a with
    | Reload => init display_throws (localStorage (page d))
    | _ => {| page := act a (page d); listening := true |}
    end.
Proof. intros Hl. destruct a; unfold step; rewrite ?Hl; reflexivity. Qed.

(** X16. Take a readable storage over which [init] completes, so that the
    listeners are set up (it always does when no search result is stored).
    A key remembered at blur is there again after the page is loaded anew,
    masked in the field, if the storage can be written, whether or not the
    new [init] completes; if the storage cannot be written, the write
    fails silently and the new document is the one the load gave before. *)
Theorem remembered_key_survives_reload
        (display_throws : LocalStorage → bool) (st : LocalStorage)
        (value : jsstring) :
  readable st = true →
  listening (init display_throws st) = true →
  trim value ≠ [] → includes bullet (trim value) = false →
  let d := steps display_throws [EditKey value; Blur; Reload]
                 (init display_throws st) in
  if writable st
  then fullApiKey (page d) = trim value
       ∧ apiKey_value (page d) = maskApiKey (trim value)
  else d = init display_throws st.
Proof.
  intros Hr Hl Hne Hb d. subst d. unfold steps. cbn [foldl].
  rewrite (step_listening _ (EditKey value) _ Hl).
  rewrite (step_listening _ Blur) by reflexivity.
  cbn [step page act]. rewrite page_init.
  rewrite blur_remembers by assumption.
  unfold remember. cbn [localStorage apiKey_value].
  rewrite page_init.
  assert (localStorage (opened st) = st) as -> by apply restore_fields_storage.
  destruct (writable st) eqn:Hw.
  - pose proof (restore_fields_key (blank (setStoredApiKey (trim value) st).2)) as Hk.
    cbn [blank localStorage] in Hk. unfold setStoredApiKey, getStoredApiKey in Hk.
    rewrite (getStored_setStored _ _ st Hr Hw) in Hk.
    destruct (trim value) as [|c key]; [contradiction | exact Hk].
  - unfold setStoredApiKey. rewrite (setStored_unwritable _ _ st Hw). reflexivity.
Qed.

Lemma remembered_key_survives_reload_witness :
  fullApiKey (page (steps never_displays
                          [EditKey (js "AIzaSyD-1234567 "); Blur; Reload]
                          (init never_displays fresh_storage)))
  = js "AIzaSyD-1234567"
  ∧ steps never_displays [EditKey (js "AIzaSyD-1234567 "); Blur; Reload]
          (init never_displays full_storage)
    = init never_displays full_storage.
Proof.
  split.
  - exact (proj1 (remembered_key_survives_reload
                    never_displays fresh_storage (js "AIzaSyD-1234567 ")
                    eq_refl eq_refl ltac:(discriminate) eq_refl)).
  - exact (remembered_key_survives_reload
             never_displays full_storage (js "AIzaSyD-1234567 ")
             eq_refl eq_refl ltac:(discriminate) eq_refl).
Defined.





End KeyField.

Section KeyInvariant.


Lemma setStored_other (name other value : jsstring) (st : LocalStorage) :
  other ≠ name →
  items (snd (setStored name value st)) !! other = items st !! other.
Proof.
  intros Hne. unfold setStored, setItem.
  destruct (writable st); [|reflexivity]. cbn [snd items].
  apply lookup_insert_ne. congruence.
Qed.

Lemma setStored_same (name value key : jsstring) (st : LocalStorage) :
  items (snd (setStored name value st)) !! name = Some key →
  key = value ∨ items st !! name = Some key.
Proof.
  unfold setStored, setItem. destruct (writable st); [|auto]. cbn [snd items].
  rewrite lookup_insert_eq. intros [= ->]. auto.
Qed.

Lemma trimmed_clean (value : jsstring) :
  trim value ≠ [] → includes bullet (trim value) = false → clean (trim value).
Proof. intros Hne Hb. split; [exact Hne | split; [exact Hb | apply trim_idempotent]]. Qed.

Lemma remember_inv (key : jsstring) (pg : Page) :
  clean key → key_inv pg → key_inv (remember key pg).
Proof.
  intros Hc [_ Hst]. split; [right; exact Hc|].
  intros k Hk. cbn [localStorage remember] in Hk.
  apply setStored_same in Hk as [->|Hk]; [exact Hc | apply Hst; exact Hk].
Qed.

Lemma store_other_inv (name value : jsstring) (pg pg' : Page) :
  name ≠ js "google_api_key" →
  fullApiKey pg' = fullApiKey pg →
  localStorage pg' = snd (setStored name value (localStorage pg)) →
  key_inv pg → key_inv pg'.
Proof.
  intros Hne Hf Hs [Hk Hst]. split; [rewrite Hf; exact Hk|].
  intros k Hlk. rewrite Hs in Hlk.
  rewrite setStored_other in Hlk; [apply Hst; exact Hlk|].
  intros Heq. symmetry in Heq. exact (Hne Heq).
Qed.

Lemma opened_inv (st : LocalStorage) :
  (∀ key, items st !! js "google_api_key" = Some key → clean key) →
  key_inv (opened st).
Proof.
  intros Hst. unfold opened. split.
  - pose proof (restore_fields_key (blank st)) as Hk.
    cbn [blank localStorage fullApiKey] in Hk.
    destruct (getStoredApiKey st) as [[|c k]|] eqn:E;
      try (left; exact (proj1 Hk)).
    right. rewrite (proj1 Hk). apply Hst.
    unfold getStoredApiKey, getStored, getItem in E.
    destruct (readable st); [exact E | discriminate].
  - rewrite restore_fields_storage. exact Hst.
Qed.

Lemma act_inv (a : Action) (pg : Page) : key_inv pg → key_inv (act a pg).
Proof.
  intros Hinv. destruct a; cbn [act].
  - exact Hinv.
  - unfold focus. destruct (_ && _); exact Hinv.
  - unfold blur.
    destruct (negb (is_empty (trim (apiKey_value pg)))) eqn:E1; [|exact Hinv].
    destruct (includes bullet (trim (apiKey_value pg))) eqn:E2; [exact Hinv|].
    apply remember_inv; [|exact Hinv]. apply trimmed_clean; [|exact E2].
    intros H0. rewrite H0 in E1. discriminate.
  - apply (store_other_inv (js "business_input") value pg);
      [discriminate | reflexivity | reflexivity | exact Hinv].
  - unfold handleSearch.
    destruct (is_empty (trim (apiKey_value pg))
              || is_empty (trim (placeInput_value pg))) eqn:E1; [exact Hinv|].
    cbn [fst]. apply orb_false_elim in E1 as [E1 _].
    apply (store_other_inv
             (js "business_input") (trim (placeInput_value pg))
             (if negb (includes bullet (trim (apiKey_value pg)))
              then remember (trim (apiKey_value pg)) pg else pg));
      [discriminate | reflexivity | reflexivity |].
    destruct (includes bullet (trim (apiKey_value pg))) eqn:E2;
      cbn [negb]; [exact Hinv|].
    apply remember_inv; [|exact Hinv]. apply trimmed_clean; [|exact E2].
    intros H0. rewrite H0 in E1. discriminate.
  - apply (store_other_inv (js "last_search_result") json pg);
      [discriminate | reflexivity | reflexivity | exact Hinv].
  - apply (store_other_inv (js "qr_settings") json pg);
      [discriminate | reflexivity | reflexivity | exact Hinv].
  - apply opened_inv. apply Hinv.
Qed.

(** X17. From a page loaded over a storage without key, or with a key that
    is not empty, has no bullet and no white space around it, whatever the
    user does (editing the fields, focus, blur, clicking, loading the page
    anew) and whatever search result or QR setting is saved, the key the
    page remembers, if any, and the key it has stored, if
    any, are of that kind: a mask is never taken for a key, and never
    stored. *)
Theorem masked_key_never_stored (st : LocalStorage) (actions : list Action) :
  (∀ key, items st !! js "google_api_key" = Some key → clean key) →
  key_inv (acts actions (opened st)).
Proof.
  intros Hst. unfold acts.
  assert (key_inv (opened st)) as H0 by (apply opened_inv; exact Hst).
  revert H0. generalize (opened st).
  induction actions as [|a actions IH]; intros pg Hpg; [exact Hpg|].
  cbn [foldl]. apply IH. apply act_inv. exact Hpg.
Qed.

Lemma masked_key_never_stored_witness :
  key_inv (acts [EditKey (js "AIzaSyD-1234567"); Blur; Blur; Click;
                 SaveResult (js "{}"); Reload; Blur]
                (opened fresh_storage)).
Proof.
  apply (masked_key_never_stored fresh_storage).
  intros key H. unfold fresh_storage in H. cbn [items] in H.
  rewrite lookup_empty in H. discriminate.
Defined.




(** X18. [handleSearch] stops at the request to enter both values exactly
    when the key field or the place field is empty once trimmed; it then
    leaves the remembered key, the fields and the storage as they were. *)
Theorem handleSearch_validation (pg : Page) :
  (snd (handleSearch pg) = None
   ↔ trim (apiKey_value pg) = [] ∨ trim (placeInput_value pg) = [])
  ∧ (snd (handleSearch pg) = None → fst (handleSearch pg) = pg).
Proof.
  unfold handleSearch.
  destruct (trim (apiKey_value pg)) as [|c k];
    destruct (trim (placeInput_value pg)) as [|d i]; cbn [is_empty orb fst snd].
  - split; [split; auto | reflexivity].
  - split; [split; auto | reflexivity].
  - split; [split; auto | reflexivity].
  - split; [split; [discriminate | intros [H|H]; discriminate] | discriminate].
Qed.

Lemma setStored_writable (name value : jsstring) (st : LocalStorage) :
  writable (snd (setStored name value st)) = writable st.
Proof.
  unfold setStored, setItem. destruct (writable st) eqn:E; [reflexivity | exact E].
Qed.

Lemma setStored_lookup (name value : jsstring) (st : LocalStorage) :
  writable st = true → items (snd (setStored name value st)) !! name = Some value.
Proof.
  intros Hw. unfold setStored, setItem. rewrite Hw. apply lookup_insert_eq.
Qed.

(** X19. When [handleSearch] goes on, the input it passes to [searchPlace]
    is the place field trimmed, not empty, and the key it passes to
    [loadGoogleMaps] is the key field trimmed when that holds no bullet,
    and the remembered key otherwise; so with a bullet in the field and no
    key remembered it goes on with the empty key. The input is stored, if
    the storage can be written. *)
Theorem handleSearch_passes (pg : Page) (key input : jsstring) :
  snd (handleSearch pg) = Some (key, input) →
  input = trim (placeInput_value pg) ∧ input ≠ [] ∧ trim input = input
  ∧ key = (if includes bullet (trim (apiKey_value pg)) then fullApiKey pg
           else trim (apiKey_value pg))
  ∧ fullApiKey (fst (handleSearch pg)) = key
  ∧ (includes bullet (trim (apiKey_value pg)) = true → fullApiKey pg = [] →
     key = [])
  ∧ (writable (localStorage pg) = true →
     items (localStorage (fst (handleSearch pg))) !! js "business_input"
     = Some input).
Proof.
  unfold handleSearch.
  destruct (trim (apiKey_value pg)) as [|c k] eqn:Ek; [discriminate|].
  destruct (trim (placeInput_value pg)) as [|d i] eqn:Ei; [discriminate|].
  cbn [is_empty orb fst snd].
  assert (trim (d :: i) = d :: i) as Htrim.
  { rewrite <- Ei. apply trim_idempotent. }
  destruct (includes bullet (c :: k)) eqn:Eb; cbn [negb fullApiKey remember];
    intros [= <- <-].
  - split; [reflexivity|]. split; [discriminate|]. split; [exact Htrim|].
    split; [reflexivity|]. split; [reflexivity|]. split; [auto|].
    intros Hw. apply setStored_lookup. exact Hw.
  - split; [reflexivity|]. split; [discriminate|]. split; [exact Htrim|].
    split; [reflexivity|]. split; [reflexivity|]. split; [discriminate|].
    intros Hw. apply setStored_lookup.
    unfold remember. cbn [localStorage].
    unfold setStoredApiKey. rewrite setStored_writable. exact Hw.
Qed.

Lemma handleSearch_passes_witness :
  let pg := acts [EditKey [bullet; bullet]; EditPlace (js " Joe's Pizza ")]
                 (opened fresh_storage) in
  fullApiKey (fst (handleSearch pg)) = []
  ∧ items (localStorage (fst (handleSearch pg))) !! js "business_input"
    = Some (js "Joe's Pizza").
Proof.
  intros pg.
  destruct (handleSearch_passes pg [] (js "Joe's Pizza") eq_refl)
    as (_ & _ & _ & _ & Hk & _ & Hs).
  split; [exact Hk | exact (Hs eq_refl)].
Defined.

Lemma handleSearch_validation_witness :
  fst (handleSearch (acts [EditKey (js "AIzaSyD-1234567"); EditPlace (js "   ")]
                          (opened fresh_storage)))
  = acts [EditKey (js "AIzaSyD-1234567"); EditPlace (js "   ")]
         (opened fresh_storage).
Proof.
  apply (handleSearch_validation
           (acts [EditKey (js "AIzaSyD-1234567"); EditPlace (js "   ")]
                 (opened fresh_storage))).
  apply (handleSearch_validation
           (acts [EditKey (js "AIzaSyD-1234567"); EditPlace (js "   ")]
                 (opened fresh_storage))).
  right. reflexivity.
Defined.

End KeyInvariant.

(** ** Encoding and the links *)

Section Encoding.

Local Open Scope Z_scope.

Lemma hex_char_digit (d : Z) : 0 <= d < 16 → hex_digit (hex_char d) = Some d.
Proof.
  intros Hd. unfold hex_char, hex_digit.
  destruct (Z.ltb_spec d 10); decide_tests; cbn [andb].
  all: f_equal; lia.
Qed.

Lemma hex_char_unescaped (d : Z) : 0 <= d < 16 → unescaped (hex_char d) = true.
Proof.
  intros Hd. unfold hex_char, unescaped.
  destruct (Z.ltb_spec d 10); decide_tests; reflexivity.
Qed.

Lemma unescaped_not_percent (c : Z) : unescaped c = true → c ≠ 37.
Proof. intros H ->. discriminate H. Qed.

Lemma unescape_percent (B : Z) (r : jsstring) :
  0 <= B < 256 → unescape (percent B ++ r) = cons (Octet B) <$> unescape r.
Proof.
  intros HB. unfold percent. cbn [app unescape]. rewrite Z.eqb_refl.
  unfold ParseHexOctet. rewrite !hex_char_digit by div_lia.
  replace (16 * (B / 16) + B mod 16) with B by div_lia. reflexivity.
Qed.

Lemma percent_safe (B : Z) : 0 <= B < 256 → Forall url_safe (percent B).
Proof.
  intros HB. unfold percent.
  apply Forall_cons; split; [right; reflexivity|].
  apply Forall_cons; split; [left; apply hex_char_unescaped; div_lia|].
  apply Forall_cons; split; [left; apply hex_char_unescaped; div_lia|].
  constructor.
Qed.

Lemma utf8_octets_range (V : Z) :
  0 <= V < 1114112 → Forall (fun B => 0 <= B < 256) (utf8_octets V).
Proof.
  intros HV. unfold utf8_octets. decide_tests;
    repeat (apply Forall_cons; split; [div_lia|]); constructor.
Qed.

Lemma escape_safe (V : Z) : 0 <= V < 1114112 → Forall url_safe (escape V).
Proof.
  intros HV. unfold escape. apply Forall_concat.
  apply Forall_forall. intros l Hl. apply list_elem_of_In in Hl.
  apply in_map_iff in Hl as (B & <- & HB). apply percent_safe.
  pose proof (utf8_octets_range V HV) as HF. rewrite Forall_forall in HF.
  apply HF. apply list_elem_of_In. exact HB.
Qed.

Lemma pair_range (c d : Z) :
  leading_surrogate c = true → trailing_surrogate d = true →
  65536 <= UTF16SurrogatePairToCodePoint c d < 1114112
  ∧ UTF16EncodeCodePoint (UTF16SurrogatePairToCodePoint c d) = [c; d].
Proof.
  unfold leading_surrogate, trailing_surrogate, UTF16SurrogatePairToCodePoint,
    UTF16EncodeCodePoint.
  intros Hc Hd. apply andb_true_iff in Hc as [Hc1 Hc2].
  apply andb_true_iff in Hd as [Hd1 Hd2].
  apply Z.leb_le in Hc1, Hc2, Hd1, Hd2. split; [lia|].
  decide_tests. f_equal; [|f_equal]; div_lia.
Qed.

(** Strings are taken one or two code units at a time. *)
Lemma pairs_ind (P : jsstring → Prop) :
  P [] → (∀ c s, P s → (∀ d s', s = d :: s' → P s') → P (c :: s)) → ∀ s, P s.
Proof.
  intros H0 Hstep.
  assert (∀ s, P s ∧ ∀ d s', s = d :: s' → P s') as H.
  { induction s as [|c s [IH1 IH2]].
    - split; [exact H0 | discriminate].
    - split; [apply Hstep; assumption|]. intros d s' [= -> ->]. exact IH1. }
  intros s. apply H.
Qed.

(** What [encodeURIComponent] returns holds only unescaped characters and
    [%]. *)
Lemma encodeURIComponent_safe (s r : jsstring) :
  Forall code_unit s → encodeURIComponent s = Some r → Forall url_safe r.
Proof.
  revert r. induction s as [|c s IH IH2] using pairs_ind; intros r Hs.
  - intros [= <-]. constructor.
  - cbn [encodeURIComponent]. apply Forall_cons in Hs as [Hc Hs].
    destruct (unescaped c) eqn:Eu.
    { destruct (encodeURIComponent s) as [r0|]; [|discriminate].
      intros [= <-]. apply Forall_cons. split; [left; exact Eu | auto]. }
    destruct (leading_surrogate c) eqn:El.
    { destruct s as [|d s']; [discriminate|].
      destruct (trailing_surrogate d) eqn:Et; [|discriminate].
      apply Forall_cons in Hs as [_ Hs'].
      destruct (encodeURIComponent s') as [r0|] eqn:Er; [|discriminate].
      intros [= <-]. apply Forall_app. split.
      - apply escape_safe. destruct (pair_range c d El Et) as [Hr _]. lia.
      - eapply IH2; [reflexivity | exact Hs' | exact Er]. }
    destruct (trailing_surrogate c); [discriminate|].
    destruct (encodeURIComponent s) as [r0|]; [|discriminate].
    intros [= <-]. apply Forall_app. split; [|auto].
    apply escape_safe. unfold code_unit in Hc. lia.
Qed.

Lemma decodeURIComponent_cons (c : Z) (r : jsstring) :
  c ≠ 37 → decodeURIComponent (c :: r) = cons c <$> decodeURIComponent r.
Proof.
  intros Hc. unfold decodeURIComponent. cbn [unescape].
  destruct (Z.eqb_spec c 37); [contradiction|].
  destruct (unescape r) as [ts|]; reflexivity.
Qed.

Lemma unescape_octets (Bs : list Z) (r : jsstring) :
  Forall (fun B => 0 <= B < 256) Bs →
  unescape (concat (map percent Bs) ++ r) = app (Octet <$> Bs) <$> unescape r.
Proof.
  induction 1 as [|B Bs HB _ IH]; cbn [map concat].
  - cbn [app]. destruct (unescape r); reflexivity.
  - rewrite <- app_assoc, (unescape_percent B _ HB), IH.
    destruct (unescape r); reflexivity.
Qed.

Lemma continuation_octet (m : Z) :
  0 <= m < 64 → continuation (Octet (128 + m)) = Some m.
Proof.
  intros Hm. unfold continuation.
  destruct (Z.leb_spec 128 (128 + m)); [|lia].
  destruct (Z.leb_spec (128 + m) 191); [|lia].
  cbn [andb]. f_equal. lia.
Qed.

Lemma emit_valid (lo V : Z) (r : option jsstring) :
  lo <= V < 1114112 → ¬ (55296 <= V <= 57343) →
  emit lo V r = app (UTF16EncodeCodePoint V) <$> r.
Proof.
  intros HV Hs. unfold emit, valid_code_point.
  destruct (Z.leb_spec lo V); [|lia].
  destruct (Z.leb_spec V 1114111); [|lia].
  destruct (Z.leb_spec 55296 V); destruct (Z.leb_spec V 57343);
    try lia; reflexivity.
Qed.

(** The octets of a code point are read back as that code point. *)
Lemma utf8_octets_decode (V : Z) (ts : list token) :
  0 <= V < 1114112 → ¬ (55296 <= V <= 57343) →
  utf8 ((Octet <$> utf8_octets V) ++ ts)
  = app (UTF16EncodeCodePoint V) <$> utf8 ts.
Proof.
  intros HV Hs. unfold utf8_octets.
  destruct (Z.ltb_spec V 128) as [H1|H1].
  { cbn [fmap list_fmap app utf8]. decide_div.
    unfold UTF16EncodeCodePoint. decide_div.
    destruct (utf8 ts); reflexivity. }
  destruct (Z.ltb_spec V 2048) as [H2|H2].
  { cbn [fmap list_fmap app utf8]. decide_div.
    rewrite continuation_octet by div_lia.
    replace ((192 + V / 64 - 192) * 64 + V mod 64) with V by div_lia.
    apply emit_valid; lia. }
  destruct (Z.ltb_spec V 65536) as [H3|H3].
  { cbn [fmap list_fmap app utf8]. decide_div.
    rewrite !continuation_octet by div_lia.
    replace (((224 + V / 4096 - 224) * 64 + (V / 64) mod 64) * 64 + V mod 64)
      with V by div_lia.
    apply emit_valid; lia. }
  cbn [fmap list_fmap app utf8]. decide_div.
  rewrite !continuation_octet by div_lia.
  replace ((((240 + V / 262144 - 240) * 64 + (V / 4096) mod 64) * 64
            + (V / 64) mod 64) * 64 + V mod 64) with V by div_lia.
  apply emit_valid; lia.
Qed.

Lemma decodeURIComponent_escape (V : Z) (r : jsstring) :
  0 <= V < 1114112 → ¬ (55296 <= V <= 57343) →
  decodeURIComponent (escape V ++ r)
  = app (UTF16EncodeCodePoint V) <$> decodeURIComponent r.
Proof.
  intros HV Hs. unfold decodeURIComponent, escape.
  rewrite unescape_octets by (apply utf8_octets_range; exact HV).
  destruct (unescape r) as [ts|]; [|reflexivity].
  exact (utf8_octets_decode V ts HV Hs).
Qed.

(** What [encodeURIComponent] returns decodes back to the string. *)
Lemma decode_encoded (s r : jsstring) :
  Forall code_unit s → encodeURIComponent s = Some r →
  decodeURIComponent r = Some s.
Proof.
  revert r. induction s as [|c s IH IH2] using pairs_ind; intros r Hs.
  - intros [= <-]. reflexivity.
  - cbn [encodeURIComponent]. apply Forall_cons in Hs as [Hc Hs].
    destruct (unescaped c) eqn:Eu.
    { destruct (encodeURIComponent s) as [r0|] eqn:Er; [|discriminate].
      intros [= <-]. rewrite decodeURIComponent_cons
        by (apply unescaped_not_percent; exact Eu).
      rewrite (IH r0 Hs eq_refl). reflexivity. }
    destruct (leading_surrogate c) eqn:El.
    { destruct s as [|d s']; [discriminate|].
      destruct (trailing_surrogate d) eqn:Et; [|discriminate].
      apply Forall_cons in Hs as [_ Hs'].
      destruct (encodeURIComponent s') as [r0|] eqn:Er; [|discriminate].
      intros [= <-]. destruct (pair_range c d El Et) as [Hr Hp].
      rewrite decodeURIComponent_escape by lia.
      rewrite (IH2 d s' eq_refl r0 Hs' Er), Hp. reflexivity. }
    destruct (trailing_surrogate c) eqn:Et; [discriminate|].
    destruct (encodeURIComponent s) as [r0|] eqn:Er; [|discriminate].
    intros [= <-]. unfold code_unit in Hc.
    unfold leading_surrogate in El. unfold trailing_surrogate in Et.
    apply andb_false_iff in El, Et.
    rewrite !Z.leb_gt in El, Et.
    rewrite decodeURIComponent_escape by lia.
    rewrite (IH r0 Hs eq_refl). unfold UTF16EncodeCodePoint.
    destruct (Z.ltb_spec c 65536); [reflexivity | lia].
Qed.

(** X20. Round trip: whatever [encodeURIComponent] returns for a string
    decodes back to that string with [decodeURIComponent], and holds only
    letters, digits, [- _ . ! ~ * ' ( )] and [%]. *)
Theorem encode_then_decode (s r : jsstring) :
  Forall code_unit s → encodeURIComponent s = Some r →
  decodeURIComponent r = Some s ∧ Forall url_safe r.
Proof.
  intros Hs He. split.
  - apply decode_encoded; assumption.
  - eapply encodeURIComponent_safe; eassumption.
Qed.

Lemma encode_then_decode_witness :
  decodeURIComponent
    (js "Joe's%20Pizza%20%26%20Co%2C%201%2F2%20Main%20St%20%233")
  = Some (js "Joe's Pizza & Co, 1/2 Main St #3").
Proof.
  refine (proj1 (encode_then_decode
                   (js "Joe's Pizza & Co, 1/2 Main St #3") _ _ eq_refl)).
  apply Forall_forall. intros c Hc. vm_compute in Hc.
  repeat (apply elem_of_cons in Hc as [->|Hc]; [unfold code_unit; lia|]).
  inversion Hc.
Defined.

Lemma url_safe_not_reserved (c : Z) :
  url_safe c →
  c ≠ 38 ∧ c ≠ 35 ∧ c ≠ 63 ∧ c ≠ 61 ∧ c ≠ 47 ∧ c ≠ 32 ∧ c ≠ 43.
Proof.
  intros [H| ->]; [|repeat split; discriminate].
  repeat split; intros ->; discriminate H.
Qed.

(** X21. When [displayPlaceInfo] builds the link to the business page, the
    text put after [query=] holds none of [& # ? = / +] and no space,
    whatever the name and the address are, so the parameters of the link
    stay apart; it decodes back to the name, a space and the address. The
    identifier follows [&query_place_id=] as it is, not encoded. *)
Theorem businessUrl_query (shown : Main.Shown) (url : jsstring) :
  Forall code_unit (ToString (Main.placeName shown)) →
  Forall code_unit (ToString (Main.placeAddress shown)) →
  businessUrl shown = Some url →
  ∃ query,
    url = js "https://www.google.com/maps/search/?api=1&query=" ++ query
            ++ js "&query_place_id=" ++ ToString (Main.placeId shown)
    ∧ (∀ c, c ∈ query →
         c ≠ 38 ∧ c ≠ 35 ∧ c ≠ 63 ∧ c ≠ 61 ∧ c ≠ 47 ∧ c ≠ 32 ∧ c ≠ 43)
    ∧ decodeURIComponent query
      = Some (ToString (Main.placeName shown) ++ js " "
                ++ ToString (Main.placeAddress shown)).
Proof.
  intros Hn Ha. unfold businessUrl.
  destruct (encodeURIComponent _) as [query|] eqn:E; [|discriminate].
  cbn [mbind option_bind]. intros [= <-]. exists query.
  assert (Forall code_unit
            (ToString (Main.placeName shown) ++ js " "
               ++ ToString (Main.placeAddress shown))) as Hs.
  { apply Forall_app. split; [exact Hn|]. apply Forall_app. split; [|exact Ha].
    change (js " ") with [32].
    apply Forall_cons. split; [unfold code_unit; lia | constructor]. }
  split; [reflexivity|]. split.
  - intros c Hc. apply url_safe_not_reserved.
    pose proof (encodeURIComponent_safe _ _ Hs E) as HF.
    rewrite Forall_forall in HF. apply HF. exact Hc.
  - apply decode_encoded; assumption.
Qed.

Lemma businessUrl_query_witness :
  ∃ query,
    businessUrl (Main.displayPlaceInfo Examples.rival)
    = Some (js "https://www.google.com/maps/search/?api=1&query=" ++ query
              ++ js "&query_place_id=ChIJ9")
    ∧ decodeURIComponent query = Some (js "Starbucks Reserve Pike St").
Proof.
  destruct (businessUrl_query
              (Main.displayPlaceInfo Examples.rival)
              (js "https://www.google.com/maps/search/?api=1&query=Starbucks%20Reserve%20Pike%20St&query_place_id=ChIJ9"))
    as (query & Hurl & _ & Hdec).
  - apply Forall_forall. intros c Hc. vm_compute in Hc.
    repeat (apply elem_of_cons in Hc as [->|Hc]; [unfold code_unit; lia|]).
    inversion Hc.
  - apply Forall_forall. intros c Hc. vm_compute in Hc.
    repeat (apply elem_of_cons in Hc as [->|Hc]; [unfold code_unit; lia|]).
    inversion Hc.
  - reflexivity.
  - exists query. split; [|exact Hdec].
    exact (f_equal Some Hurl).
Defined.

End Encoding.
